(** * update-portfolio.py: the asset scanning and HTML regeneration pipeline

    A shallow embedding of [src/update-portfolio.py] and the properties of
    its title deriver, thumbnail resolver, metadata merger, record
    serializer and marker splice.

    Python strings are sequences of Unicode code points, so a string is a
    list of code points ([N]).  Literals are written as UTF-8 text and
    decoded by [lit].  Python's case conversions depend on the Unicode
    character database, which is data of the interpreter and not of this
    repository: they are the methods of the class [PyCase].  Dictionaries
    are finite maps ([gmap]); the filesystem is an explicit snapshot. *)

From Stdlib Require Import Ascii String.
From Stdlib Require Import ZArith NArith List Lia Bool Permutation Sorted.
From Stdlib Require Import DecimalString.
From stdpp Require Import base option list gmap.
Import ListNotations.

#[local] Open Scope N_scope.

(* ------------------------------------------------------------------ *)
(** ** Strings *)

Definition char := N.
Definition str := list char.

Fixpoint bytes_of (s : string) : list N :=
  match s with
  | EmptyString => []
  | String a s' => N_of_ascii a :: bytes_of s'
  end.

(** UTF-8 decoding of a literal: [pending] continuation bytes are still
    expected for the code point accumulated in [acc]. *)
Fixpoint utf8_decode (pending : nat) (acc : N) (bs : list N) : str :=
  match bs with
  | [] => []
  | b :: bs' =>
    match pending with
    | S k =>
      let acc' := acc * 64 + b mod 64 in
      match k with
      | O => acc' :: utf8_decode O 0 bs'
      | S _ => utf8_decode k acc' bs'
      end
    | O =>
      if b <? 128 then b :: utf8_decode O 0 bs'
      else if b <? 224 then utf8_decode 1 (b mod 32) bs'
      else if b <? 240 then utf8_decode 2 (b mod 16) bs'
      else utf8_decode 3 (b mod 8) bs'
    end
  end.

Definition lit (s : string) : str := utf8_decode O 0 (bytes_of s).

Arguments lit : simpl never.

Definition ch (a : ascii) : char := N_of_ascii a.

Arguments ch : simpl never.

Definition in_range (lo hi c : char) : bool := (lo <=? c) && (c <=? hi).

Definition is_digit (c : char) : bool := in_range (ch "0") (ch "9") c.

(** [[0-9a-f]] under [re.I]. *)
Definition is_hex (c : char) : bool :=
  is_digit c || in_range (ch "a") (ch "f") c || in_range (ch "A") (ch "F") c.

(** [[A-Za-z0-9]]. *)
Definition is_alnum (c : char) : bool :=
  in_range (ch "A") (ch "Z") c || in_range (ch "a") (ch "z") c || is_digit c.

(** [[-_]]. *)
Definition is_sep (c : char) : bool := (c =? ch "-") || (c =? ch "_").

(** The characters for which [str.isspace] holds; [\s] of a [str]
    pattern and [str.strip()] use the same set. *)
Definition is_space (c : char) : bool :=
  in_range 9 13 c || in_range 28 32 c || (c =? 133) || (c =? 160)
  || (c =? 5760) || in_range 8192 8202 c || (c =? 8232) || (c =? 8233)
  || (c =? 8239) || (c =? 8287) || (c =? 12288).

Fixpoint startswith (s p : str) {struct p} : bool :=
  match p, s with
  | [], _ => true
  | _ :: _, [] => false
  | x :: p', y :: s' => (x =? y) && startswith s' p'
  end.

Definition endswith (s p : str) : bool := startswith (rev s) (rev p).

(** [sep.join(parts)]. *)
Fixpoint join (sep : str) (parts : list str) : str :=
  match parts with
  | [] => []
  | [p] => p
  | p :: ps => p ++ sep ++ join sep ps
  end.

(** [s.replace("'", "\\'")]. *)
Definition escape_quote (s : str) : str :=
  flat_map (fun c => if c =? ch "'" then [ch "\"; ch "'"] else [c]) s.

(** [p.rfind(c)]: the index of the last occurrence, or -1. *)
Fixpoint rfind_from (c : char) (i : Z) (p : str) (last : Z) : Z :=
  match p with
  | [] => last
  | x :: p' => rfind_from c (i + 1) p' (if x =? c then i else last)
  end.

Definition rfind (c : char) (p : str) : Z := rfind_from c 0 p (-1).

(** [p[a:b]] for indices within the string. *)
Definition slice (a b : Z) (p : str) : str :=
  firstn (Z.to_nat (b - a)) (skipn (Z.to_nat a) p).

(** [os.path.splitext] (posixpath): the extension starts at the last dot
    of the last path component, unless only dots precede it there. *)
Definition splitext (p : str) : str * str :=
  let sepIndex := rfind (ch "/") p in
  let dotIndex := rfind (ch ".") p in
  if (dotIndex >? sepIndex)%Z
     && existsb (fun x => negb (x =? ch ".")) (slice (sepIndex + 1) dotIndex p)
  then (firstn (Z.to_nat dotIndex) p, skipn (Z.to_nat dotIndex) p)
  else (p, []).

(** [str(n)] for an [int]. *)
Definition py_str (z : Z) : str := bytes_of (NilZero.string_of_int (Z.to_int z)).

(** [s.zfill(width)]. *)
Definition zfill (s : str) (width : nat) : str :=
  if (width <=? length s)%nat then s
  else
    let fill := repeat (ch "0") (width - length s) in
    match s with
    | c :: s' => if (c =? ch "+") || (c =? ch "-") then c :: fill ++ s' else fill ++ s
    | [] => fill
    end.

(** [s.strip()]. *)
Fixpoint lstrip (s : str) : str :=
  match s with
  | c :: s' => if is_space c then lstrip s' else s
  | [] => []
  end.

Definition strip (s : str) : str := rev (lstrip (rev (lstrip s))).

(** Lexicographic comparison of code points: [<=] on [str]. *)
Fixpoint str_leb (a b : str) : bool :=
  match a, b with
  | [], _ => true
  | _ :: _, [] => false
  | x :: a', y :: b' => (x <? y) || ((x =? y) && str_leb a' b')
  end.

Fixpoint insert_sorted (x : str) (l : list str) : list str :=
  match l with
  | [] => [x]
  | y :: l' => if str_leb x y then x :: l else y :: insert_sorted x l'
  end.

(** [sorted(l)] for a list of strings. *)
Definition sorted (l : list str) : list str := foldr insert_sorted [] l.

(** Case conversion ([str.lower], [str.title], [str.capitalize]) follows
    the interpreter's Unicode tables. *)
Class PyCase := {
  lower : str -> str;
  title_case : str -> str;
  capitalize : str -> str
}.

(* ------------------------------------------------------------------ *)
(** ** Regular expressions of [make_title] *)

Definition pattern := list (char -> bool).

Fixpoint match_prefix (pat : pattern) (s : str) {struct pat} : bool :=
  match pat, s with
  | [], _ => true
  | _ :: _, [] => false
  | p :: pat', c :: s' => p c && match_prefix pat' s'
  end.

Definition is_dash (c : char) : bool := c =? ch "-".

(** [[0-9a-f]{8}-[0-9a-f]{4}-[0-9a-f]{4}-[0-9a-f]{4}-[0-9a-f]{12}] *)
Definition uuid_pattern : pattern :=
  repeat is_hex 8 ++ [is_dash] ++ repeat is_hex 4 ++ [is_dash]
  ++ repeat is_hex 4 ++ [is_dash] ++ repeat is_hex 4 ++ [is_dash]
  ++ repeat is_hex 12.

(** [re.sub(pat, '', s)] for a pattern of fixed width: every leftmost
    match is dropped; [skip] characters of the current match remain. *)
Fixpoint delete_matches (pat : pattern) (skip : nat) (s : str) : str :=
  match s with
  | [] => []
  | c :: s' =>
    match skip with
    | S k => delete_matches pat k s'
    | O =>
      if match_prefix pat s then delete_matches pat (length pat - 1) s'
      else c :: delete_matches pat O s'
    end
  end.

Fixpoint span (p : char -> bool) (s : str) : str * str :=
  match s with
  | c :: s' => if p c then let '(a, b) := span p s' in (c :: a, b) else ([], s)
  | [] => ([], [])
  end.

(** [[A-Za-z0-9]{12,}$] at the start of [s]: the whole alphanumeric run is
    taken, and [$] holds at the end of the string or before a final
    newline.  Returns what follows the match. *)
Definition match_hash_tail (s : str) : option str :=
  let '(run, rest) := span is_alnum s in
  if (12 <=? length run)%nat
  then match rest with
       | [] => Some []
       | [c] => if c =? 10 then Some rest else None
       | _ => None
       end
  else None.

(** [re.sub(r'[-_][A-Za-z0-9]{12,}$', '', s)] *)
Fixpoint strip_hash_suffix (s : str) : str :=
  match s with
  | [] => []
  | c :: s' =>
    if is_sep c
    then match match_hash_tail s' with
         | Some rest => rest
         | None => c :: strip_hash_suffix s'
         end
    else c :: strip_hash_suffix s'
  end.

(** [re.sub(cls+, ' ', s)]: every maximal run becomes one space. *)
Fixpoint collapse_runs (cls : char -> bool) (in_run : bool) (s : str) : str :=
  match s with
  | [] => []
  | c :: s' =>
    if cls c
    then (if in_run then collapse_runs cls true s'
          else ch " " :: collapse_runs cls true s')
    else c :: collapse_runs cls false s'
  end.

(* ------------------------------------------------------------------ *)
(** ** Configuration *)

Definition PHOTO_EXTS : list str :=
  [lit ".jpg"; lit ".jpeg"; lit ".png"; lit ".webp"; lit ".gif"; lit ".avif"].

Definition VIDEO_EXTS : list str :=
  [lit ".mp4"; lit ".mov"; lit ".webm"; lit ".avi"].

Definition POSTER_NAMES : list str :=
  [lit "poster.jpg"; lit "poster.jpeg"; lit "poster.png";
   lit "cover.jpg"; lit "cover.jpeg"; lit "cover.png"].

Definition POSTER_SUFFIX : str := lit "_poster".

Definition IGNORE_DIRS : list str :=
  [lit "__pycache__"; lit ".DS_Store"; lit ".git"; lit "thumbs"; lit "node_modules"].

Definition GENERIC_PREFIXES : list str :=
  [lit "gemini generated image"; lit "grok video"; lit "magnifics mystic";
   lit "download"; lit "image"; lit "photo"; lit "img"; lit "file";
   lit "untitled"; lit "screenshot"; lit "captura de pantalla"].

(* ------------------------------------------------------------------ *)
(** ** The title deriver *)

Section Title.
Context {U : PyCase}.

(** Steps 1 to 3 of [make_title]: the cleaned stem. *)
Definition clean_stem (filename : str) : str :=
  let stem := fst (splitext filename) in
  let stem := delete_matches uuid_pattern O stem in
  let stem := strip_hash_suffix stem in
  let stem := strip (collapse_runs is_sep false stem) in
  collapse_runs is_space false stem.

(** [f'{album.capitalize()} — {pad}'] *)
Definition numbered (head : str) (index total : Z) : str :=
  let pad := zfill (py_str index) (length (py_str total)) in
  head ++ lit " — " ++ pad.

(** The loop over [GENERIC_PREFIXES], in the order the set is iterated:
    the first matching prefix returns. *)
Fixpoint generic_loop (prefixes : list str) (stem_lower fallback : str) : option str :=
  match prefixes with
  | [] => None
  | prefix :: rest =>
    if bool_decide (stem_lower = prefix) || startswith stem_lower prefix
    then Some fallback
    else generic_loop rest stem_lower fallback
  end.

Definition make_title_in (prefixes : list str)
    (album filename : str) (index total : Z) : str :=
  let stem := clean_stem filename in
  if bool_decide (stem = []) || (length stem <? 2)%nat
  then numbered (capitalize album) index total
  else
    let stem := title_case stem in
    let stem_lower := lower stem in
    match generic_loop prefixes stem_lower (numbered (capitalize album) index total) with
    | Some t => t
    | None =>
      if (total >? 1)%Z then numbered stem index total else stem
    end.

Definition make_title : str -> str -> Z -> Z -> str :=
  make_title_in GENERIC_PREFIXES.

End Title.

(* ------------------------------------------------------------------ *)
(** ** Case conversion on ASCII text

    On strings of ASCII characters Python's conversions are these. *)

Module AsciiCase.

Definition is_upper (c : char) : bool := in_range (ch "A") (ch "Z") c.
Definition is_lower (c : char) : bool := in_range (ch "a") (ch "z") c.
Definition is_cased (c : char) : bool := is_upper c || is_lower c.
Definition to_lower (c : char) : char := if is_upper c then c + 32 else c.
Definition to_upper (c : char) : char := if is_lower c then c - 32 else c.

Fixpoint title_from (previous_is_cased : bool) (s : str) : str :=
  match s with
  | [] => []
  | c :: s' =>
    (if previous_is_cased then to_lower c else to_upper c)
      :: title_from (is_cased c) s'
  end.

Definition capitalize_ascii (s : str) : str :=
  match s with
  | [] => []
  | c :: s' => to_upper c :: map to_lower s'
  end.

#[export] Instance ascii_case : PyCase := {|
  lower := map to_lower;
  title_case := title_from false;
  capitalize := capitalize_ascii
|}.

End AsciiCase.

(* ------------------------------------------------------------------ *)
(** ** The filesystem snapshot and the documents read from it *)

(** One entry of an album directory: its name, whether
    [os.path.isfile] holds for it, and the day of its last modification
    as [get_date] formats it. *)
Record File := {
  fname : str;
  is_file : bool;
  mdate : str
}.

(** A directory is its entries in the order [os.listdir] returns them. *)
Definition Dir := list File.

Definition listdir (d : Dir) : list str := map fname d.

Definition lookup_file (d : Dir) (f : str) : option File :=
  List.find (fun e => bool_decide (fname e = f)) d.

Definition isfile (d : Dir) (f : str) : bool :=
  match lookup_file d f with
  | Some e => is_file e
  | None => false
  end.

(** [get_date] is only asked for files that were just listed. *)
Definition get_date (d : Dir) (f : str) : str :=
  match lookup_file d f with
  | Some e => mdate e
  | None => []
  end.

(** A JSON number, as [str()] prints it: an [int], or a [float] given by
    its printed form. *)
Inductive number :=
  | Int (z : Z)
  | Float (printed : str).

Definition py_str_number (n : number) : str :=
  match n with
  | Int z => py_str z
  | Float printed => printed
  end.

(** The optional fields of one file in [meta.json]. *)
Record MetaEntry := {
  m_caption : option str;
  m_credit : option str;
  m_featured : option bool;
  m_order : option number;
  m_layout : option str
}.

(** [meta.json] of an album: absent, unreadable, or an object with its
    optional [assets] and [albumTitle] members. *)
Inductive MetaJson :=
  | MetaAbsent
  | MetaMalformed
  | MetaObject (assets : option (gmap str MetaEntry)) (albumTitle : option str).

Record AlbumDir := {
  files : Dir;
  meta_json : MetaJson
}.

(** An entry of [SCRIPT_DIR]: a name, and the album directory behind it
    when [os.path.isdir] holds. *)
Record RootEntry := {
  rname : str;
  rdir : option AlbumDir
}.

Inductive TagsJson :=
  | TagsAbsent
  | TagsMalformed
  | TagsObject (tags : gmap str (list str)).

Record Snapshot := {
  root : list RootEntry;
  tags_json : TagsJson
}.

(** An asset dict: the six keys every entry has, and the optional ones. *)
Record Asset := {
  a_type : str;
  a_src : str;
  a_thumb : str;
  a_title : str;
  a_album : str;
  a_date : str;
  a_albumTitle : option str;
  a_duration : option str;
  a_caption : option str;
  a_credit : option str;
  a_featured : option bool;
  a_order : option number;
  a_layout : option str;
  a_tags : option (list str)
}.

Definition set_albumTitle (v : str) (a : Asset) : Asset :=
  {| a_type := a_type a; a_src := a_src a; a_thumb := a_thumb a;
     a_title := a_title a; a_album := a_album a; a_date := a_date a;
     a_albumTitle := Some v; a_duration := a_duration a;
     a_caption := a_caption a; a_credit := a_credit a;
     a_featured := a_featured a; a_order := a_order a;
     a_layout := a_layout a; a_tags := a_tags a |}.

Definition set_tags (v : option (list str)) (a : Asset) : Asset :=
  {| a_type := a_type a; a_src := a_src a; a_thumb := a_thumb a;
     a_title := a_title a; a_album := a_album a; a_date := a_date a;
     a_albumTitle := a_albumTitle a; a_duration := a_duration a;
     a_caption := a_caption a; a_credit := a_credit a;
     a_featured := a_featured a; a_order := a_order a;
     a_layout := a_layout a; a_tags := v |}.

(** [x if key in meta else asset[key]] *)
Definition overlay {A} (new old : option A) : option A :=
  match new with
  | Some v => Some v
  | None => old
  end.

(** [merge_meta]: each of [META_FIELDS] present in [meta_for_file] is
    copied onto the asset. *)
Definition merge_meta (asset : Asset) (meta_for_file : MetaEntry) : Asset :=
  {| a_type := a_type asset; a_src := a_src asset; a_thumb := a_thumb asset;
     a_title := a_title asset; a_album := a_album asset; a_date := a_date asset;
     a_albumTitle := a_albumTitle asset; a_duration := a_duration asset;
     a_caption := overlay (m_caption meta_for_file) (a_caption asset);
     a_credit := overlay (m_credit meta_for_file) (a_credit asset);
     a_featured := overlay (m_featured meta_for_file) (a_featured asset);
     a_order := overlay (m_order meta_for_file) (a_order asset);
     a_layout := overlay (m_layout meta_for_file) (a_layout asset);
     a_tags := a_tags asset |}.

(** [load_album_meta]: [(assets_dict, albumTitle | None)]. *)
Definition load_album_meta (d : AlbumDir) : gmap str MetaEntry * option str :=
  match meta_json d with
  | MetaObject assets albumTitle => (default ∅ assets, albumTitle)
  | MetaAbsent | MetaMalformed => (∅, None)
  end.

(** [load_tags] *)
Definition load_tags (s : Snapshot) : gmap str (list str) :=
  match tags_json s with
  | TagsObject tags => tags
  | TagsAbsent | TagsMalformed => ∅
  end.

(** Truth value of a string or [None]. *)
Definition truthy (s : option str) : bool :=
  match s with
  | Some (_ :: _) => true
  | _ => false
  end.

(** [f'{album}/{name}'] *)
Definition rel_path (album name : str) : str := album ++ lit "/" ++ name.

(* ------------------------------------------------------------------ *)
(** ** The thumbnail resolver *)

Section Scan.
Context {U : PyCase}.

(** [{f.lower(): f for f in os.listdir(album_dir) if isfile(f)}]: a
    later entry replaces an earlier one with the same lowered name. *)
Definition files_lower_of (d : Dir) : gmap str str :=
  foldl (fun m f => <[lower f := f]> m) ∅ (List.filter (isfile d) (listdir d)).

(** The first two loops of [find_thumb_for_video]: the first candidate
    that is a key of [files_lower] returns the file behind it. *)
Fixpoint first_key (candidates : list str) (files_lower : gmap str str) : option str :=
  match candidates with
  | [] => None
  | candidate :: rest =>
    match files_lower !! candidate with
    | Some f => Some f
    | None => first_key rest files_lower
    end
  end.

Definition reserved (fl : str) : bool :=
  bool_decide (fl ∈ map lower POSTER_NAMES).

Definition has_poster_suffix (fl : str) : bool :=
  endswith (fst (splitext fl)) POSTER_SUFFIX.

(** The third loop: the first listed name that is not skipped and is a
    photo file. *)
Fixpoint first_photo (d : Dir) (names : list str) : option str :=
  match names with
  | [] => None
  | f :: rest =>
    let fl := lower f in
    if reserved fl then first_photo d rest
    else if has_poster_suffix fl then first_photo d rest
    else if bool_decide (snd (splitext fl) ∈ PHOTO_EXTS) && isfile d f
    then Some f
    else first_photo d rest
  end.

Definition video_poster_candidates (video_filename : str) : list str :=
  let video_stem := fst (splitext video_filename) in
  map (fun ext => lower (video_stem ++ POSTER_SUFFIX ++ ext))
      [lit ".jpg"; lit ".jpeg"; lit ".png"].

Definition find_thumb_for_video (album_dir : Dir) (album_name video_filename : str)
    : option str :=
  let files_lower := files_lower_of album_dir in
  match first_key (video_poster_candidates video_filename) files_lower with
  | Some f => Some (rel_path album_name f)
  | None =>
    match first_key POSTER_NAMES files_lower with
    | Some f => Some (rel_path album_name f)
    | None =>
      match first_photo album_dir (sorted (listdir album_dir)) with
      | Some f => Some (rel_path album_name f)
      | None => None
      end
    end
  end.

(* ---------------------------------------------------------------- *)
(** ** The scanner and the metadata merger *)

(** The classification loop of [scan_portfolio] over the sorted
    listing: [(photos, videos)]. *)
Fixpoint classify (d : Dir) (names : list str) : list str * list str :=
  match names with
  | [] => ([], [])
  | f :: rest =>
    let '(photos, videos) := classify d rest in
    let fl := lower f in
    if reserved fl then (photos, videos)
    else if has_poster_suffix fl then (photos, videos)
    else
      let ext := snd (splitext fl) in
      if negb (isfile d f) then (photos, videos)
      else if bool_decide (ext ∈ PHOTO_EXTS) then (f :: photos, videos)
      else if bool_decide (ext ∈ VIDEO_EXTS) then (photos, f :: videos)
      else (photos, videos)
  end.

(** [enumerate(l, start=i)] *)
Fixpoint enumerate {A} (i : Z) (l : list A) : list (Z * A) :=
  match l with
  | [] => []
  | x :: l' => (i, x) :: enumerate (i + 1) l'
  end.

Section Album.
(** The order in which this run iterates the set [GENERIC_PREFIXES]. *)
Variable prefixes : list str.
Variable tags_data : gmap str (list str).
Variable album : str.
Variable album_dir : AlbumDir.

Definition attach_meta_and_tags (fname : str) (entry : Asset) : Asset :=
  let album_file_meta := fst (load_album_meta album_dir) in
  let entry :=
    match album_file_meta !! fname with
    | Some meta_for_file => merge_meta entry meta_for_file
    | None => entry
    end in
  let tag_key := rel_path album fname in
  match tags_data !! tag_key with
  | Some tags => set_tags (Some tags) entry
  | None => entry
  end.

Definition photo_entry (photos : list str) (i : Z) (fname : str) : Asset :=
  let album_title := snd (load_album_meta album_dir) in
  let entry :=
    {| a_type := lit "photo";
       a_src := rel_path album fname;
       a_thumb := rel_path album fname;
       a_title := make_title_in prefixes album fname i (Z.of_nat (length photos));
       a_album := album;
       a_date := get_date (files album_dir) fname;
       a_albumTitle := None; a_duration := None; a_caption := None;
       a_credit := None; a_featured := None; a_order := None;
       a_layout := None; a_tags := None |} in
  let entry :=
    if truthy album_title && (i =? 1)%Z
    then set_albumTitle (default [] album_title) entry
    else entry in
  attach_meta_and_tags fname entry.

Definition video_entry (photos videos : list str) (i : Z) (fname : str) : Asset :=
  let album_title := snd (load_album_meta album_dir) in
  let thumb_src := find_thumb_for_video (files album_dir) album fname in
  let entry :=
    {| a_type := lit "video";
       a_src := rel_path album fname;
       a_thumb := if truthy thumb_src then default [] thumb_src
                  else rel_path album fname;
       a_title := make_title_in prefixes album fname i (Z.of_nat (length videos));
       a_album := album;
       a_date := get_date (files album_dir) fname;
       a_albumTitle := None; a_duration := None; a_caption := None;
       a_credit := None; a_featured := None; a_order := None;
       a_layout := None; a_tags := None |} in
  let entry :=
    if truthy album_title && bool_decide (photos = [])
    then set_albumTitle (default [] album_title) entry
    else entry in
  attach_meta_and_tags fname entry.

(** The body of [for album in albums]: the assets this album appends. *)
Definition scan_album : list Asset :=
  let '(photos, videos) :=
    classify (files album_dir) (sorted (listdir (files album_dir))) in
  map (fun '(i, fname) => photo_entry photos i fname) (enumerate 1 photos)
  ++ map (fun '(i, fname) => video_entry photos videos i fname) (enumerate 1 videos).
End Album.

(** [d] is kept as an album: a directory, not ignored, not hidden. *)
Definition is_album (e : RootEntry) : bool :=
  bool_decide (is_Some (rdir e))
  && negb (bool_decide (rname e ∈ IGNORE_DIRS))
  && negb (startswith (rname e) (lit ".")).

(** [os.path.join(SCRIPT_DIR, album)]; every album name comes from an
    entry that is a directory. *)
Definition album_dir_of (s : Snapshot) (album : str) : AlbumDir :=
  match List.find (fun e => bool_decide (rname e = album)) (root s) with
  | Some {| rdir := Some d |} => d
  | _ => {| files := []; meta_json := MetaAbsent |}
  end.

Definition scan_portfolio_in (prefixes : list str) (s : Snapshot)
    : list Asset * list str :=
  let tags_data := load_tags s in
  let albums := sorted (map rname (List.filter is_album (root s))) in
  (flat_map (fun album => scan_album prefixes tags_data album (album_dir_of s album)) albums,
   albums).

Definition scan_portfolio : Snapshot -> list Asset * list str :=
  scan_portfolio_in GENERIC_PREFIXES.

End Scan.

(* ------------------------------------------------------------------ *)
(** ** The record serializer *)

Definition nl : str := [10].

(** [f"{key}'{value}'"] *)
Definition quoted (key value : str) : str := key ++ value ++ lit "'".

Definition js_entry_core (asset : Asset) : list str :=
  [ lit "  {";
    quoted (lit "    type:  '") (a_type asset) ++ lit ",";
    quoted (lit "    src:   '") (a_src asset) ++ lit ",";
    quoted (lit "    thumb: '") (a_thumb asset) ++ lit ",";
    quoted (lit "    title: '") (a_title asset) ++ lit ",";
    quoted (lit "    album: '") (a_album asset) ++ lit ",";
    quoted (lit "    date:  '") (a_date asset) ].

(** The line a present optional field contributes. *)
Definition when_set {A} (field : option A) (line : A -> str) : list str :=
  match field with
  | Some v => [line v]
  | None => []
  end.

Definition tags_line (tags : list str) : str :=
  let tags_str := join (lit ", ") (map (fun t => lit "'" ++ t ++ lit "'") tags) in
  lit "    tags:     [" ++ tags_str ++ lit "]".

Definition js_entry_trailing (asset : Asset) : list str :=
  (if truthy (a_albumTitle asset)
   then when_set (a_albumTitle asset)
          (fun v => quoted (lit "    albumTitle: '") (escape_quote v))
   else [])
  ++ when_set (a_duration asset) (quoted (lit "    duration: '"))
  ++ when_set (a_caption asset)
       (fun v => quoted (lit "    caption:  '") (escape_quote v))
  ++ when_set (a_credit asset)
       (fun v => quoted (lit "    credit:   '") (escape_quote v))
  ++ (match a_featured asset with
      | Some true => [lit "    featured: true"]
      | _ => []
      end)
  ++ when_set (a_order asset) (fun v => lit "    order:    " ++ py_str_number v)
  ++ when_set (a_layout asset) (quoted (lit "    layout:   '"))
  ++ (match a_tags asset with
      | Some (t :: ts) => [tags_line (t :: ts)]
      | _ => []
      end).

(** [lines[-1] += ","] *)
Definition comma_last (lines : list str) : list str :=
  List.removelast lines ++ [List.last lines [] ++ lit ","].

(** [for t in trailing: lines[-1] += ","; lines.append(t)] *)
Fixpoint append_trailing (lines trailing : list str) : list str :=
  match trailing with
  | [] => lines
  | t :: rest => append_trailing (comma_last lines ++ [t]) rest
  end.

Definition js_entry_lines (asset : Asset) : list str :=
  append_trailing (js_entry_core asset) (js_entry_trailing asset) ++ [lit "  }"].

Definition js_entry (asset : Asset) : str := join nl (js_entry_lines asset).

(* ------------------------------------------------------------------ *)
(** ** The renderer and the marker splice *)

Definition ASSETS_START : str := lit "// ASSETS:START".
Definition ASSETS_END : str := lit "// ASSETS:END".

Definition separator (current_album : str) : str :=
  nl ++ lit "  // ── Álbum: " ++ current_album
     ++ lit " ─────────────────────────────────────────────".

(** The loop of [update_html]: the lines appended to [body_lines] from
    the state [current_album]. *)
Fixpoint body_loop (current_album : option str) (assets : list Asset) : list str :=
  match assets with
  | [] => []
  | asset :: rest =>
    if bool_decide (Some (a_album asset) = current_album)
    then (js_entry asset ++ lit ",") :: body_loop current_album rest
    else separator (a_album asset)
           :: (js_entry asset ++ lit ",")
           :: body_loop (Some (a_album asset)) rest
  end.

Definition body_lines (assets : list Asset) : list str := body_loop None assets.

Definition new_block (assets : list Asset) : str :=
  let header_lines := [ASSETS_START; lit "const ASSETS = ["] in
  let footer_lines := [lit "];"; ASSETS_END] in
  join nl header_lines ++ nl ++ join nl (body_lines assets) ++ nl
    ++ join nl footer_lines.

(** The first occurrence of [pat] in [s]: the text before it and the text
    after it. *)
Fixpoint find_sub (pat s : str) : option (str * str) :=
  if startswith s pat then Some ([], skipn (length pat) s)
  else
    match s with
    | [] => None
    | c :: s' =>
      match find_sub pat s' with
      | Some (pre, post) => Some (c :: pre, post)
      | None => None
      end
    end.

(** [re.search(r'// ASSETS:START.*?// ASSETS:END', html, flags=re.DOTALL)]:
    the text before the leftmost match, the text between its markers and
    the text after it. *)
Definition search_markers (html : str) : option (str * str * str) :=
  match find_sub ASSETS_START html with
  | Some (pre, rest) =>
    match find_sub ASSETS_END rest with
    | Some (mid, post) => Some (pre, mid, post)
    | None => None
    end
  | None => None
  end.

(** [re.sub(pattern, repl, html, flags=re.DOTALL)] with the replacement
    template already parsed into a function of the matched text: every
    match, left to right.  A match is longer than one character, so
    [length html] steps are enough. *)
Fixpoint sub_markers (steps : nat) (repl : str -> str) (html : str) : str :=
  match steps with
  | O => html
  | S k =>
    match search_markers html with
    | Some (pre, mid, post) =>
      pre ++ repl (ASSETS_START ++ mid ++ ASSETS_END) ++ sub_markers k repl post
    | None => html
    end
  end.

(** [re] reads the replacement string as a template: it resolves the
    backslash escapes in it (one of them stands for the matched text) and
    raises on an escape it does not know. *)
Class PyRe := {
  expand_template : str -> option (str -> str)
}.

(** What [update_html] touches: the text of [portfolio.html] and the
    console. *)
Record World := {
  html_file : str;
  console : list str
}.

Inductive outcome :=
  | Returned (value : bool)
  | Raised.

Definition MISSING_MARKERS : str :=
  lit "⚠️  No se encontraron marcadores ASSETS:START / ASSETS:END en portfolio.html".

Section Render.
Context {R : PyRe}.

(** [html_file] of the world left behind is the text handed to
    [f.write]: the write itself (lines 342-343) is taken to go through. *)
Definition update_html (assets : list Asset) (albums : list str) (w : World)
    : outcome * World :=
  let html := html_file w in
  let new_block := new_block assets in
  match search_markers html with
  | None =>
    (Returned false,
     {| html_file := html_file w; console := console w ++ [MISSING_MARKERS] |})
  | Some _ =>
    match expand_template new_block with
    | None => (Raised, w)
    | Some repl =>
      let new_html := sub_markers (length html) repl html in
      (Returned true, {| html_file := new_html; console := console w |})
    end
  end.

End Render.

(** An expansion that agrees with [re] on every template without a
    backslash: such a template stands for itself. *)
Module PlainTemplate.

#[export] Instance plain_re : PyRe := {|
  expand_template := fun s =>
    if existsb (fun c => c =? ch "\") s then None else Some (fun _ => s)
|}.

End PlainTemplate.

(** How the process ends: [exit(code)] (falling off the end is
    [exit(0)]), or an exception nobody catches. *)
Inductive ending :=
  | Exit (code : Z)
  | Uncaught.

Section Main.
Context {U : PyCase} {R : PyRe}.

(** The main program, in a process that iterates [GENERIC_PREFIXES] in
    the order [prefixes].  The summary it prints is left out. *)
Definition main (prefixes : list str) (dry_run : bool) (s : Snapshot) (w : World)
    : ending * World :=
  let '(assets, albums) := scan_portfolio_in prefixes s in
  if bool_decide (assets = []) then (Exit 1, w)
  else if dry_run then (Exit 0, w)
  else
    match update_html assets albums w with
    | (Returned true, w') => (Exit 0, w')
    | (Returned false, w') => (Exit 1, w')
    | (Raised, w') => (Uncaught, w')
    end.

(** The block a run renders: the [new_block] of its call of
    [update_html], if it gets that far. *)
Definition rendered_block (prefixes : list str) (s : Snapshot) : option str :=
  let '(assets, albums) := scan_portfolio_in prefixes s in
  if bool_decide (assets = []) then None else Some (new_block assets).

(** One run of the pipeline: the block it renders, how it ends and what
    it leaves behind. *)
Definition run_pipeline (prefixes : list str) (s : Snapshot) (w : World)
    : option str * (ending * World) :=
  (rendered_block prefixes s, main prefixes false s w).

End Main.

(* ------------------------------------------------------------------ *)
(** ** Specification vocabulary *)

(** The document holds the start marker and, after it, the end marker. *)
Definition has_markers (html : str) : Prop :=
  exists pre mid post, html = pre ++ ASSETS_START ++ mid ++ ASSETS_END ++ post.

(** Each asset with the one emitted just before it, if any. *)
Fixpoint with_previous (previous : option Asset) (assets : list Asset)
    : list (option Asset * Asset) :=
  match assets with
  | [] => []
  | asset :: rest => (previous, asset) :: with_previous (Some asset) rest
  end.

Definition record_line (asset : Asset) : str := js_entry asset ++ lit ",".

(** The lines for one record when a separator is written exactly where
    the album differs from the album of the record before, and nowhere
    else. *)
Definition lines_at_album_change (p : option Asset * Asset) : list str :=
  match p with
  | (Some previous, asset) =>
    if bool_decide (a_album previous = a_album asset)
    then [record_line asset]
    else [separator (a_album asset); record_line asset]
  | (None, asset) => [record_line asset]
  end.

(** The same, with a separator before the first record as well. *)
Definition lines_at_album_start (p : option Asset * Asset) : list str :=
  match p with
  | (Some previous, asset) =>
    if bool_decide (a_album previous = a_album asset)
    then [record_line asset]
    else [separator (a_album asset); record_line asset]
  | (None, asset) => [separator (a_album asset); record_line asset]
  end.

(** [x] is the first element of [l] for which [P] holds. *)
Definition first_such {A} (P : A -> Prop) (l : list A) (x : A) : Prop :=
  exists before after, l = before ++ x :: after /\ P x /\ forall y, y ∈ before -> ~ P y.

Section ThumbVocabulary.
Context {U : PyCase}.

(** [f] is a regular file of the directory and its lowered name is
    [target]. *)
Definition named (d : Dir) (target f : str) : Prop :=
  f ∈ List.filter (isfile d) (listdir d) /\ lower f = target.

Definition present (d : Dir) (target : str) : Prop := exists f, named d target f.

(** [f] is a photo file that is neither a reserved poster name nor a
    generated poster. *)
Definition plain_photo (d : Dir) (f : str) : bool :=
  negb (reserved (lower f))
  && negb (has_poster_suffix (lower f))
  && bool_decide (snd (splitext (lower f)) ∈ PHOTO_EXTS)
  && isfile d f.

End ThumbVocabulary.

(** A line of the body that opens a record (a separator opens with a
    line break). *)
Definition is_record_line (line : str) : bool := startswith line (lit "  {").

Definition str_le (a b : str) : Prop := str_leb a b = true.

(** What the order of the scan shows of an asset. *)
Definition order_key (a : Asset) : str * str * str := (a_album a, a_type a, a_src a).

(** Two assets that the renderer cannot tell apart. *)
Definition same_render (a b : Asset) : Prop :=
  js_entry a = js_entry b /\ a_album a = a_album b.

(** Two tag documents that differ only where one has the empty list and
    the other has no entry. *)
Definition same_but_empty_lists (doc1 doc2 : gmap str (list str)) : Prop :=
  forall key, doc1 !! key = doc2 !! key
              \/ (doc1 !! key = Some [] /\ doc2 !! key = None).

Definition with_tags_json (t : TagsJson) (s : Snapshot) : Snapshot :=
  {| root := root s; tags_json := t |}.

(** [piece] occurs in [whole]. *)
Definition occurs_in (piece whole : str) : Prop :=
  exists before after, whole = before ++ piece ++ after.

(** In [s], every single quote is preceded by a backslash. *)
Definition quotes_escaped (s : str) : Prop :=
  forall before after, s = before ++ ch "'" :: after ->
    exists before', before = before' ++ [ch "\"].

(** [out] is the value [v] with a backslash put before each of its
    single quotes: every other character is kept, in its place, and
    nothing else is added. *)
Inductive escaped_as : str -> str -> Prop :=
  | escaped_end : escaped_as [] []
  | escaped_quote (v out : str) :
      escaped_as v out ->
      escaped_as (ch "'" :: v) (ch "\" :: ch "'" :: out)
  | escaped_other (c : char) (v out : str) :
      c <> ch "'" ->
      escaped_as v out ->
      escaped_as (c :: v) (c :: out).

(* ------------------------------------------------------------------ *)
(** ** Sample inputs *)

Definition page_without_markers : World :=
  {| html_file := lit "<script>const ASSETS = [];</script> // ASSETS:END";
     console := [] |}.

Definition sample_file (name : string) : File :=
  {| fname := lit name; is_file := true; mdate := lit "2024-05-17" |}.

(** One album holding one photo. *)
Definition one_photo_album : Snapshot :=
  {| root := [ {| rname := lit "70s";
                  rdir := Some {| files := [sample_file "sunset.jpg"];
                                  meta_json := MetaAbsent |} |} ];
     tags_json := TagsAbsent |}.

Definition blank_asset : Asset :=
  {| a_type := []; a_src := []; a_thumb := []; a_title := []; a_album := [];
     a_date := []; a_albumTitle := None; a_duration := None; a_caption := None;
     a_credit := None; a_featured := None; a_order := None; a_layout := None;
     a_tags := None |}.

(** An album of three photos; the tag document gives the first one a
    tag, the last one the empty list, and has no entry for the second. *)
Definition tagged_album : Snapshot :=
  {| root := [ {| rname := lit "70s";
                  rdir := Some {| files := [sample_file "z.jpg"; sample_file "x.jpg";
                                            sample_file "y.jpg"];
                                  meta_json := MetaAbsent |} |} ];
     tags_json := TagsObject (<[lit "70s/x.jpg" := [lit "urban"]]>
                               (<[lit "70s/z.jpg" := []]> ∅)) |}.

Definition x_asset : Asset :=
  List.nth 0 (fst (scan_portfolio (U := AsciiCase.ascii_case) tagged_album)) blank_asset.

(** An album of two videos and no photo, with a title of its own. *)
Definition two_videos_album : Snapshot :=
  {| root := [ {| rname := lit "clips";
                  rdir := Some {| files := [sample_file "a.mp4"; sample_file "b.mp4"];
                                  meta_json := MetaObject None (Some (lit "Clips")) |} |} ];
     tags_json := TagsAbsent |}.

(** An album whose only photo has a quote in its name. *)
Definition quote_album : Snapshot :=
  {| root := [ {| rname := lit "70s";
                  rdir := Some {| files := [sample_file "it's.jpg"];
                                  meta_json := MetaAbsent |} |} ];
     tags_json := TagsAbsent |}.

Definition quote_asset : Asset :=
  List.nth 0 (fst (scan_portfolio (U := AsciiCase.ascii_case) quote_album)) blank_asset.

(** A directory with a frame extracted for [clip.mp4], an album poster
    and a photo; and the same without the frame, then without both. *)
Definition poster_dir : Dir :=
  [sample_file "a.jpg"; sample_file "clip.mp4"; sample_file "clip_poster.png";
   sample_file "cover.jpg"; sample_file "poster.png"].

Definition cover_dir : Dir :=
  [sample_file "a.jpg"; sample_file "clip.mp4"; sample_file "cover.jpg";
   sample_file "poster.png"].

Definition photo_dir : Dir :=
  [sample_file "other_poster.jpg"; sample_file "b.jpg"; sample_file "a.jpg";
   sample_file "clip.mp4"].

(** A frame stored under an upper-case name, next to an album poster. *)
Definition upper_case_dir : Dir :=
  [sample_file "CLIP_POSTER.JPG"; sample_file "clip.mp4"; sample_file "poster.jpg"].

Definition bare_dir : Dir :=
  [sample_file "clip.mp4"; sample_file "other_poster.jpg"].

(** A page with both markers inside one line of text. *)
Definition page_with_inline_markers : World :=
  {| html_file := lit "<p>// ASSETS:START old // ASSETS:END</p>"; console := [] |}.

Definition page_with_markers : World :=
  {| html_file := lit "<script>// ASSETS:START old // ASSETS:END</script>";
     console := [] |}.

(* ------------------------------------------------------------------ *)
(** ** More vocabulary for the scan *)

Section ScanVocabulary.
Context {U : PyCase}.

(** [f] is indexed as a video: a regular file with a video extension
    (and no photo extension) that is neither a reserved poster name nor a
    generated poster. *)
Definition video_file (d : Dir) (f : str) : bool :=
  negb (reserved (lower f))
  && negb (has_poster_suffix (lower f))
  && isfile d f
  && negb (bool_decide (snd (splitext (lower f)) ∈ PHOTO_EXTS))
  && bool_decide (snd (splitext (lower f)) ∈ VIDEO_EXTS).

(** The entry of [SCRIPT_DIR] is a directory that the scan takes as an
    album. *)
Definition visible_directory (e : RootEntry) : Prop :=
  is_Some (rdir e) /\ (rname e ∉ IGNORE_DIRS) /\ startswith (rname e) (lit ".") = false.

End ScanVocabulary.

(** The optional fields [meta.json] has for a file, if it has the file. *)
Definition meta_field {A} (m : option MetaEntry) (field : MetaEntry -> option A) : option A :=
  match m with
  | Some entry => field entry
  | None => None
  end.

(** The fields of a record as [js_entry] writes them, without the commas
    that join them: the six core fields and the optional ones. *)
Definition js_entry_fields (asset : Asset) : list str :=
  [ quoted (lit "    type:  '") (a_type asset);
    quoted (lit "    src:   '") (a_src asset);
    quoted (lit "    thumb: '") (a_thumb asset);
    quoted (lit "    title: '") (a_title asset);
    quoted (lit "    album: '") (a_album asset);
    quoted (lit "    date:  '") (a_date asset) ]
  ++ js_entry_trailing asset.

Definition set_featured (v : option bool) (a : Asset) : Asset :=
  {| a_type := a_type a; a_src := a_src a; a_thumb := a_thumb a;
     a_title := a_title a; a_album := a_album a; a_date := a_date a;
     a_albumTitle := a_albumTitle a; a_duration := a_duration a;
     a_caption := a_caption a; a_credit := a_credit a;
     a_featured := v; a_order := a_order a;
     a_layout := a_layout a; a_tags := a_tags a |}.

(** The block is one marked region: it opens with the start marker and
    holds the end marker at its end and nowhere before. *)
Definition single_region (block : str) : Prop :=
  exists mid, search_markers block = Some ([], mid, []).

(** The replacement template stands for itself. *)
Definition verbatim `{PyRe} (block : str) : Prop :=
  expand_template block = Some (fun _ => block).

(** A photo whose caption quotes the end marker. *)
Definition marker_in_caption : Asset :=
  {| a_type := lit "photo"; a_src := lit "70s/x.jpg"; a_thumb := lit "70s/x.jpg";
     a_title := lit "X"; a_album := lit "70s"; a_date := lit "2024-05-17";
     a_albumTitle := None; a_duration := None;
     a_caption := Some (lit "see // ASSETS:END in the page");
     a_credit := None; a_featured := None; a_order := None; a_layout := None;
     a_tags := None |}.

(** An album with descriptions for one of its photos. *)
Definition captioned_album : Snapshot :=
  {| root := [ {| rname := lit "70s";
                  rdir := Some
                    {| files := [sample_file "a.jpg"; sample_file "b.jpg"];
                       meta_json :=
                         MetaObject
                           (Some (<[lit "b.jpg" :=
                                      {| m_caption := Some (lit "Rock 'n' roll");
                                         m_credit := None;
                                         m_featured := Some true;
                                         m_order := Some (Int 3);
                                         m_layout := None |}]> ∅))
                           None |} |} ];
     tags_json := TagsAbsent |}.

Definition b_asset : Asset :=
  List.nth 1 (fst (scan_portfolio (U := AsciiCase.ascii_case) captioned_album)) blank_asset.

Definition tagged_assets : list Asset :=
  fst (scan_portfolio (U := AsciiCase.ascii_case) tagged_album).

(** The sample page after a first splice of the sample assets. *)
Definition spliced_page : World :=
  snd (update_html (R := PlainTemplate.plain_re) tagged_assets [] page_with_markers).

(** An album where a frame was stored for [clip.mp4]. *)
Definition frame_dir : Dir :=
  [sample_file "a.jpg"; sample_file "clip.mp4"; sample_file "clip_poster.jpg";
   sample_file "poster.png"].

(** No two white-space characters in a row ([previous_space]: the
    character before was one). *)
Fixpoint spaced_once (previous_space : bool) (s : str) : bool :=
  match s with
  | [] => true
  | c :: rest =>
    if is_space c then negb previous_space && spaced_once true rest
    else spaced_once false rest
  end.

(** A string of words: no hyphen or underscore, no white space other
    than the space character, no two spaces in a row, none at either
    end. *)
Definition words_only (s : str) : Prop :=
  (forall c, c ∈ s -> is_sep c = false)
  /\ (forall c, c ∈ s -> is_space c = true -> c = ch " ")
  /\ (forall before after, s <> before ++ ch " " :: ch " " :: after)
  /\ (forall c rest, s = c :: rest -> is_space c = false)
  /\ (forall c init, s = init ++ [c] -> is_space c = false).

(* ------------------------------------------------------------------ *)
(** * rename-with-ai.py: names for renamed photos *)

From Stdlib Require DecimalFacts.
From Stdlib Require Import DecimalZ DecimalPos.

(** [re.sub(cls+, repl, s)] for a one-character replacement. *)
Fixpoint replace_runs (cls : char -> bool) (repl : char) (in_run : bool) (s : str) : str :=
  match s with
  | [] => []
  | c :: s' =>
    if cls c
    then (if in_run then replace_runs cls repl true s'
          else repl :: replace_runs cls repl true s')
    else c :: replace_runs cls repl false s'
  end.

(** [s.lstrip(chars)] and [s.strip(chars)] for the characters in [cls]. *)
Fixpoint lstrip_chars (cls : char -> bool) (s : str) : str :=
  match s with
  | c :: s' => if cls c then lstrip_chars cls s' else s
  | [] => []
  end.

Definition strip_chars (cls : char -> bool) (s : str) : str :=
  rev (lstrip_chars cls (rev (lstrip_chars cls s))).

(** [[a-z0-9-]] *)
Definition is_name_char (c : char) : bool :=
  in_range (ch "a") (ch "z") c || is_digit c || is_dash c.

Section Rename.
Context {U : PyCase}.

Definition sanitize (name : str) : str :=
  let name := lower (strip name) in
  let name := map (fun c => if is_name_char c then c else ch "-") name in
  let name := strip_chars is_dash (replace_runs is_dash (ch "-") false name) in
  if bool_decide (name = []) then lit "unnamed" else name.

End Rename.

Section UniqueName.
(** [os.path.exists(os.path.join(directory, candidate))] *)
Variable path_exists : str -> bool.

(** [f'{stem}-{i}{ext}'] *)
Definition numbered_name (stem ext : str) (i : Z) : str :=
  stem ++ lit "-" ++ py_str i ++ ext.

(** The [while True] loop of [unique_name], for at most [rounds]
    rounds. *)
Fixpoint unique_name_loop (rounds : nat) (stem ext : str) (i : Z) : option str :=
  match rounds with
  | O => None
  | S k =>
    let candidate := numbered_name stem ext i in
    if negb (path_exists candidate) then Some candidate
    else unique_name_loop k stem ext (i + 1)
  end.

Definition unique_name (rounds : nat) (stem ext : str) : option str :=
  let candidate := stem ++ ext in
  if negb (path_exists candidate) then Some candidate
  else unique_name_loop rounds stem ext 2.

End UniqueName.

(** No two characters of [cls] in a row. *)
Fixpoint runs_of_one (cls : char -> bool) (previous : bool) (s : str) : bool :=
  match s with
  | [] => true
  | c :: rest =>
    if cls c then negb previous && runs_of_one cls true rest
    else runs_of_one cls false rest
  end.

(** A name of lower-case letters, digits and single hyphens between
    them. *)
Definition hyphenated_name (s : str) : Prop :=
  s <> []
  /\ (forall c, c ∈ s -> is_name_char c = true)
  /\ (forall rest, s <> ch "-" :: rest)
  /\ (forall init, s <> init ++ [ch "-"])
  /\ (forall before after, s <> before ++ ch "-" :: ch "-" :: after).

(* ------------------------------------------------------------------ *)
(** * assign-tags.py: tags by keywords *)

(** [re.split(cls+, s)]: the pieces between the runs, the empty pieces
    at either end included; [piece] holds the current piece, reversed. *)
Fixpoint split_runs (cls : char -> bool) (piece : str) (in_run : bool) (s : str)
    : list str :=
  match s with
  | [] => [rev piece]
  | c :: s' =>
    if cls c
    then (if in_run then split_runs cls [] true s'
          else rev piece :: split_runs cls [] true s')
    else split_runs cls (c :: piece) false s'
  end.

(** A theme of [proposed_themes.json]. *)
Record Theme := {
  t_tag : str;
  t_label : str;
  t_keywords : list str
}.

(** An item of [scan_media]. *)
Record Item := {
  i_album : str;
  i_filename : str;
  i_stem : str;
  i_path : str
}.

Section AssignTags.
Context {U : PyCase}.

(** [set(re.split(r'[-_\s]+', stem.lower()))], as the list of its
    members. *)
Definition tokenize (stem : str) : list str :=
  split_runs (fun c => is_sep c || is_space c) [] false (lower stem).

(** [words & kws] is not empty. *)
Definition theme_matches (words : list str) (theme : Theme) : bool :=
  existsb (fun w => bool_decide (w ∈ t_keywords theme)) words.

(** The inner loop of [assign_by_keywords]. *)
Definition tags_for (themes : list Theme) (item : Item) : list str :=
  map t_tag (List.filter (theme_matches (tokenize (i_stem item))) themes).

Definition assign_by_keywords (items : list Item) (themes : list Theme)
    : gmap str (list str) :=
  foldl (fun results item => <[i_path item := tags_for themes item]> results) ∅ items.

End AssignTags.

(** The tag document without its entries for the empty list. *)
Definition without_empty_lists (doc : gmap str (list str)) : gmap str (list str) :=
  filter (fun kv => snd kv <> []) doc.

(** A line of the body that is a separator. *)
Definition separators_of (lines : list str) : list str :=
  List.filter (fun line => negb (is_record_line line)) lines.

Definition sample_themes : list Theme :=
  [ {| t_tag := lit "urban"; t_label := lit "Urban";
       t_keywords := [lit "city"; lit "street"] |};
    {| t_tag := lit "night"; t_label := lit "Night";
       t_keywords := [lit "night"; lit "neon"] |} ].

Definition neon_item : Item :=
  {| i_album := lit "70s"; i_filename := lit "Neon_Street-2.jpg";
     i_stem := lit "Neon_Street-2"; i_path := lit "70s/Neon_Street-2.jpg" |}.

Definition portrait_item : Item :=
  {| i_album := lit "70s"; i_filename := lit "portrait.jpg";
     i_stem := lit "portrait"; i_path := lit "70s/portrait.jpg" |}.

Definition sample_items : list Item := [neon_item; portrait_item].

(** The list is not empty. *)
Definition has_some {A} (l : list A) : bool :=
  match l with
  | [] => false
  | _ :: _ => true
  end.

(** The second asset of [tagged_album]. *)
Definition y_asset : Asset := List.nth 1 tagged_assets blank_asset.
(* ================================================================== *)
(** * Properties *)

(** ** Literals and basic string facts *)

Lemma startswith_app (p rest : str) : startswith (p ++ rest) p = true.
Proof.
  induction p as [|x p IH]; simpl; [done|].
  by rewrite N.eqb_refl, IH.
Qed.

Lemma startswith_inv (s p : str) :
  startswith s p = true -> exists rest, s = p ++ rest.
Proof.
  revert s. induction p as [|x p IH]; intros s Hs; simpl in *.
  - by exists s.
  - destruct s as [|y s]; [done|].
    apply andb_true_iff in Hs as [Hxy Hs].
    apply N.eqb_eq in Hxy as ->.
    destruct (IH _ Hs) as [rest ->]. by exists rest.
Qed.

Lemma skipn_app_exact {A} (p rest : list A) : skipn (length p) (p ++ rest) = rest.
Proof. induction p; simpl; auto. Qed.

Lemma startswith_skipn (s p : str) :
  startswith s p = true -> s = p ++ skipn (length p) s.
Proof.
  intros [rest Hs]%startswith_inv. rewrite Hs at 2.
  by rewrite skipn_app_exact.
Qed.

(** ** The marker search *)

Lemma find_sub_unfold (pat s : str) :
  find_sub pat s =
  if startswith s pat then Some ([], skipn (length pat) s)
  else match s with
       | [] => None
       | c :: s' =>
         match find_sub pat s' with
         | Some (pre, post) => Some (c :: pre, post)
         | None => None
         end
       end.
Proof. by destruct s. Qed.

Lemma find_sub_Some (pat s pre post : str) :
  find_sub pat s = Some (pre, post) -> s = pre ++ pat ++ post.
Proof.
  revert pre post. induction s as [|c s IH]; intros pre post;
    rewrite find_sub_unfold; destruct (startswith _ pat) eqn:Hsw.
  - intros [= <- <-]. by apply startswith_skipn.
  - done.
  - intros [= <- <-]. by apply startswith_skipn.
  - destruct (find_sub pat s) as [[pre' post']|] eqn:Hf; [|done].
    intros [= <- <-]. simpl. f_equal. by apply IH.
Qed.

(** The occurrence found is the leftmost one. *)
Lemma find_sub_leftmost (pat s pre post : str) :
  find_sub pat s = Some (pre, post) ->
  forall pre' post', s = pre' ++ pat ++ post' -> (length pre <= length pre')%nat.
Proof.
  revert pre post. induction s as [|c s IH]; intros pre post;
    rewrite find_sub_unfold; destruct (startswith _ pat) eqn:Hsw.
  - intros [= <- <-] **. simpl. lia.
  - done.
  - intros [= <- <-] **. simpl. lia.
  - destruct (find_sub pat s) as [[pre0 post0]|] eqn:Hf; [|done].
    intros [= <- <-] pre' post' Hs.
    destruct pre' as [|c' pre'].
    + simpl in Hs. rewrite Hs, startswith_app in Hsw. done.
    + injection Hs as -> Hs. simpl.
      specialize (IH _ _ eq_refl _ _ Hs). lia.
Qed.

Lemma find_sub_None (pat s : str) :
  find_sub pat s = None -> forall pre post, s <> pre ++ pat ++ post.
Proof.
  induction s as [|c s IH]; rewrite find_sub_unfold;
    destruct (startswith _ pat) eqn:Hsw; try done.
  - intros _ pre post Hs. destruct pre as [|c' pre].
    + simpl in Hs. rewrite Hs, startswith_app in Hsw. done.
    + done.
  - destruct (find_sub pat s) as [[pre0 post0]|] eqn:Hf; [done|].
    intros _ pre post Hs. destruct pre as [|c' pre].
    + simpl in Hs. rewrite Hs, startswith_app in Hsw. done.
    + injection Hs as -> Hs. by eapply IH.
Qed.

Lemma app_eq_app_le {A} (a b c d : list A) :
  a ++ b = c ++ d -> (length a <= length c)%nat -> exists x, b = x ++ d.
Proof.
  revert c. induction a as [|x a IH]; intros c Heq Hlen.
  - exists c. done.
  - destruct c as [|y c]; simpl in *; [lia|].
    injection Heq as -> Heq. apply (IH c); [done|lia].
Qed.

Lemma search_markers_Some (html pre mid post : str) :
  search_markers html = Some (pre, mid, post) ->
  html = pre ++ ASSETS_START ++ mid ++ ASSETS_END ++ post.
Proof.
  unfold search_markers.
  destruct (find_sub ASSETS_START html) as [[pre0 rest]|] eqn:H1; [|done].
  destruct (find_sub ASSETS_END rest) as [[mid0 post0]|] eqn:H2; [|done].
  intros [= <- <- <-].
  apply find_sub_Some in H1, H2. by rewrite H1, H2.
Qed.

Lemma search_markers_None (html : str) :
  search_markers html = None <-> ~ has_markers html.
Proof.
  split.
  - intros Hs (pre & mid & post & Hhtml). unfold search_markers in Hs.
    destruct (find_sub ASSETS_START html) as [[pre0 rest]|] eqn:H1.
    + destruct (find_sub ASSETS_END rest) as [[mid0 post0]|] eqn:H2; [done|].
      pose proof (find_sub_leftmost _ _ _ _ H1 _ _ Hhtml) as Hle.
      apply find_sub_Some in H1.
      destruct (app_eq_app_le (pre0 ++ ASSETS_START) rest
                  (pre ++ ASSETS_START ++ mid) (ASSETS_END ++ post)) as [x Hx].
      * rewrite <- !app_assoc. by rewrite <- H1, <- Hhtml.
      * rewrite !length_app. lia.
      * by eapply (find_sub_None _ _ H2 x post).
    + by eapply (find_sub_None _ _ H1 pre (mid ++ ASSETS_END ++ post)).
  - intros Hno. destruct (search_markers html) as [[[pre mid] post]|] eqn:Hs; [|done].
    destruct Hno. exists pre, mid, post. by apply search_markers_Some.
Qed.

Lemma search_markers_shorter (html pre mid post : str) :
  search_markers html = Some (pre, mid, post) -> (length post < length html)%nat.
Proof.
  intros ->%search_markers_Some. rewrite !length_app.
  assert (0 < length ASSETS_START)%nat by (vm_compute; lia). lia.
Qed.

Lemma sub_markers_steps (n : nat) (repl : str -> str) (html : str) :
  (length html <= n)%nat ->
  sub_markers n repl html = sub_markers (length html) repl html.
Proof.
  revert html. induction n as [n IH] using lt_wf_ind. intros html Hn.
  destruct n as [|n]; [by replace (length html) with O by lia|].
  destruct (length html) as [|m] eqn:Hm.
  - destruct html; [|done]. done.
  - simpl. destruct (search_markers html) as [[[pre mid] post]|] eqn:Hs; [|done].
    apply search_markers_shorter in Hs.
    rewrite (IH n) by lia. rewrite (IH m) by lia. done.
Qed.

(** ** The splice *)

Section Splice.
Context {R : PyRe}.

Lemma update_html_no_match (assets : list Asset) (albums : list str) (w : World) :
  search_markers (html_file w) = None ->
  update_html assets albums w =
    (Returned false,
     {| html_file := html_file w; console := console w ++ [MISSING_MARKERS] |}).
Proof. intros Hs. unfold update_html. by rewrite Hs. Qed.

Lemma update_html_match (assets : list Asset) (albums : list str) (w : World)
    (pre mid post : str) :
  search_markers (html_file w) = Some (pre, mid, post) ->
  update_html assets albums w =
    match expand_template (new_block assets) with
    | None => (Raised, w)
    | Some repl =>
      (Returned true,
       {| html_file := pre ++ repl (ASSETS_START ++ mid ++ ASSETS_END)
                         ++ sub_markers (length post) repl post;
          console := console w |})
    end.
Proof.
  intros Hs. unfold update_html. rewrite Hs.
  destruct (expand_template _) as [repl|]; [|done].
  pose proof (search_markers_shorter _ _ _ _ Hs) as Hlt.
  destruct (length (html_file w)) as [|n] eqn:Hn; [lia|].
  simpl. rewrite Hs. rewrite (sub_markers_steps n) by lia. done.
Qed.

(** C3.  A document that does not hold the start marker followed by
    the end marker makes [update_html] report the failure and return
    [False] with the document as it was; and whenever [update_html]
    leaves a different document, both markers were found, it returned
    [True], and the text before the first start marker is kept while the
    first marked region is replaced. *)
Theorem update_html_missing_markers (assets : list Asset) (albums : list str) (w : World) :
  (~ has_markers (html_file w) ->
     update_html assets albums w =
       (Returned false,
        {| html_file := html_file w; console := console w ++ [MISSING_MARKERS] |}))
  /\ (forall o w', update_html assets albums w = (o, w') ->
        html_file w' <> html_file w ->
        o = Returned true
        /\ exists pre mid post repl,
             html_file w = pre ++ ASSETS_START ++ mid ++ ASSETS_END ++ post
             /\ expand_template (new_block assets) = Some repl
             /\ html_file w' = pre ++ repl (ASSETS_START ++ mid ++ ASSETS_END)
                                 ++ sub_markers (length post) repl post).
Proof.
  split.
  - intros Hno. apply update_html_no_match. by apply search_markers_None.
  - intros o w' Hrun Hchanged.
    destruct (search_markers (html_file w)) as [[[pre mid] post]|] eqn:Hs.
    + rewrite (update_html_match _ _ _ _ _ _ Hs) in Hrun.
      destruct (expand_template (new_block assets)) as [repl|] eqn:He.
      * injection Hrun as <- <-. split; [done|].
        exists pre, mid, post, repl. split; [|done].
        by apply search_markers_Some.
      * injection Hrun as <- <-. done.
    + rewrite (update_html_no_match _ _ _ Hs) in Hrun.
      injection Hrun as <- <-. done.
Qed.

End Splice.

(** The markers are found as text, wherever they stand in a line. *)
Example update_html_inline_markers :
  fst (update_html (R := PlainTemplate.plain_re) [] [] page_with_inline_markers)
    = Returned true.
Proof. vm_compute. reflexivity. Qed.

Lemma update_html_missing_markers_witness :
  update_html (R := PlainTemplate.plain_re) [] [] page_without_markers =
    (Returned false,
     {| html_file := html_file page_without_markers; console := [MISSING_MARKERS] |}).
Proof.
  apply (proj1 (update_html_missing_markers (R := PlainTemplate.plain_re)
                  [] [] page_without_markers)).
  apply search_markers_None. vm_compute. reflexivity.
Defined.

(** ** The record serializer *)

Lemma comma_last_snoc (lines : list str) (t : str) :
  comma_last (lines ++ [t]) = lines ++ [t ++ lit ","].
Proof.
  unfold comma_last. by rewrite List.removelast_last, List.last_last.
Qed.

Lemma comma_last_app (lines : list str) (t : str) (more : list str) :
  comma_last (lines ++ t :: more) = lines ++ comma_last (t :: more).
Proof.
  revert lines t. induction more as [|m more IH] using rev_ind; intros lines t.
  - by rewrite comma_last_snoc.
  - rewrite (app_comm_cons more), app_assoc.
    by rewrite !comma_last_snoc, <- app_assoc.
Qed.

(** The loop that appends the optional fields leaves the earlier lines
    alone but for the comma closing the line before each new one. *)
Lemma append_trailing_cons (lines : list str) (t : str) (rest : list str) :
  append_trailing lines (t :: rest) =
    comma_last lines ++ List.removelast (map (fun x => x ++ lit ",") (t :: rest))
      ++ [List.last (t :: rest) []].
Proof.
  revert lines t. induction rest as [|r rest IH]; intros lines t.
  - done.
  - change (append_trailing lines (t :: r :: rest))
      with (append_trailing (comma_last lines ++ [t]) (r :: rest)).
    rewrite IH, comma_last_snoc. rewrite <- !app_assoc. done.
Qed.

Lemma append_trailing_elem (lines trailing : list str) (t : str) :
  t ∈ trailing ->
  t ∈ append_trailing lines trailing \/ (t ++ lit ",") ∈ append_trailing lines trailing.
Proof.
  revert lines. induction trailing as [|x trailing IH]; intros lines Ht.
  - by apply elem_of_nil in Ht.
  - destruct trailing as [|y trailing].
    + apply list_elem_of_singleton in Ht as ->. left. simpl.
      apply elem_of_app. right. by apply list_elem_of_singleton.
    + apply elem_of_cons in Ht as [->|Ht].
      * right. change (append_trailing lines (x :: y :: trailing))
          with (append_trailing (comma_last lines ++ [x]) (y :: trailing)).
        rewrite append_trailing_cons, comma_last_snoc.
        rewrite !elem_of_app. left. right. by apply list_elem_of_singleton.
      * change (append_trailing lines (x :: y :: trailing))
          with (append_trailing (comma_last lines ++ [x]) (y :: trailing)).
        by apply IH.
Qed.

Lemma join_singleton (sep a : str) : join sep [a] = a.
Proof. done. Qed.

Lemma join_cons2 (sep a b : str) (l : list str) :
  join sep (a :: b :: l) = a ++ sep ++ join sep (b :: l).
Proof. done. Qed.

Lemma join_app (sep : str) (l1 l2 : list str) :
  l1 <> [] -> l2 <> [] -> join sep (l1 ++ l2) = join sep l1 ++ sep ++ join sep l2.
Proof.
  intros H1 H2. induction l1 as [|a l1 IH]; [done|].
  destruct l1 as [|b l1].
  - destruct l2; [done|]. done.
  - change (join sep (a :: (b :: l1) ++ l2) = join sep (a :: b :: l1) ++ sep ++ join sep l2).
    change ((b :: l1) ++ l2) with (b :: (l1 ++ l2)).
    rewrite !join_cons2. change (b :: l1 ++ l2) with ((b :: l1) ++ l2).
    rewrite IH by done. by rewrite <- !app_assoc.
Qed.

Lemma join_elem (sep x : str) (l : list str) :
  x ∈ l -> occurs_in x (join sep l).
Proof.
  intros (l1 & l2 & ->)%list_elem_of_split.
  destruct l1 as [|a l1], l2 as [|b l2].
  - exists [], []. simpl. by rewrite app_nil_r.
  - exists [], (sep ++ join sep (b :: l2)). done.
  - exists (join sep (a :: l1) ++ sep), [].
    rewrite join_app by done. simpl. by rewrite app_nil_r, <- app_assoc.
  - exists (join sep (a :: l1) ++ sep), (sep ++ join sep (b :: l2)).
    rewrite join_app by done. rewrite join_cons2. by rewrite <- !app_assoc.
Qed.

Lemma occurs_in_app_l (piece extra whole : str) :
  occurs_in (piece ++ extra) whole -> occurs_in piece whole.
Proof.
  intros (before & after & ->). exists before, (extra ++ after).
  by rewrite <- app_assoc.
Qed.

(** A line of the optional part occurs in the record. *)
Lemma js_entry_trailing_occurs (asset : Asset) (line : str) :
  line ∈ js_entry_trailing asset -> occurs_in line (js_entry asset).
Proof.
  intros Hin. unfold js_entry, js_entry_lines.
  destruct (append_trailing_elem (js_entry_core asset) _ _ Hin) as [H|H].
  - apply join_elem, elem_of_app. by left.
  - apply (occurs_in_app_l _ (lit ",")), join_elem, elem_of_app. by left.
Qed.

Lemma escape_quote_cons (c : char) (s : str) :
  escape_quote (c :: s) =
    (if c =? ch "'" then [ch "\"; ch "'"] else [c]) ++ escape_quote s.
Proof. done. Qed.

Lemma escape_quote_escaped (s : str) : quotes_escaped (escape_quote s).
Proof.
  induction s as [|c s IH]; intros before after Heq.
  - by destruct before.
  - rewrite escape_quote_cons in Heq. destruct (c =? ch "'") eqn:Hc.
    + destruct before as [|b0 [|b1 before]].
      * done.
      * injection Heq as <- Heq. exists []. done.
      * injection Heq as <- <- Heq.
        destruct (IH _ _ Heq) as [before' ->].
        by exists (ch "\" :: ch "'" :: before').
    + destruct before as [|b0 before].
      * injection Heq as -> Heq. by rewrite N.eqb_refl in Hc.
      * injection Heq as -> Heq.
        destruct (IH _ _ Heq) as [before' ->]. by exists (b0 :: before').
Qed.

(** The lines of a record: the opening brace and the first five fields,
    the [date] line with or without a closing comma, and at least the
    closing brace after it. *)
Lemma js_entry_lines_shape (asset : Asset) :
  exists date_line more,
    (date_line = quoted (lit "    date:  '") (a_date asset)
     \/ date_line = quoted (lit "    date:  '") (a_date asset) ++ lit ",")
    /\ more <> []
    /\ js_entry_lines asset =
         [ lit "  {";
           quoted (lit "    type:  '") (a_type asset) ++ lit ",";
           quoted (lit "    src:   '") (a_src asset) ++ lit ",";
           quoted (lit "    thumb: '") (a_thumb asset) ++ lit ",";
           quoted (lit "    title: '") (a_title asset) ++ lit ",";
           quoted (lit "    album: '") (a_album asset) ++ lit "," ]
         ++ date_line :: more.
Proof.
  unfold js_entry_lines. destruct (js_entry_trailing asset) as [|t rest].
  - exists (quoted (lit "    date:  '") (a_date asset)), [lit "  }"].
    split; [by left|]. split; [done|]. reflexivity.
  - rewrite append_trailing_cons.
    exists (quoted (lit "    date:  '") (a_date asset) ++ lit ","),
           ((List.removelast (map (fun x => x ++ lit ",") (t :: rest))
               ++ [List.last (t :: rest) []]) ++ [lit "  }"]).
    split; [by right|]. split; [by destruct (_ ++ [List.last _ _])|].
    reflexivity.
Qed.

(** What [replace] returns is the value with a backslash before each
    quote and nothing else changed. *)
Lemma escape_quote_escaped_as (v : str) : escaped_as v (escape_quote v).
Proof.
  induction v as [|c v IH]; [constructor|].
  rewrite escape_quote_cons. destruct (c =? ch "'") eqn:Hc.
  - apply N.eqb_eq in Hc as ->. by constructor.
  - apply N.eqb_neq in Hc. by constructor.
Qed.

(** The escaped text determines the value and the value the escaped
    text. *)
Lemma escaped_as_functional (v out out' : str) :
  escaped_as v out -> escaped_as v out' -> out = out'.
Proof.
  intros H. revert out'. induction H as [|v out _ IH|c v out Hc _ IH]; intros out' H'.
  - by inversion H'.
  - inversion H' as [|? out2 H2|? ? out2 Hc2 H2]; subst; [|done].
    by rewrite (IH _ H2).
  - inversion H' as [|? out2 H2|? ? out2 Hc2 H2]; subst; [done|].
    by rewrite (IH _ H2).
Qed.

(** C9.  The record opens with the six core fields, each value between
    single quotes exactly as it is in the asset; [duration], [layout] and
    the tags are written as they are too; [albumTitle], [caption] and
    [credit] are written escaped, and the escaped text is the value
    itself with a backslash put before each of its single quotes, every
    other character kept: so every quote of it stands behind a
    backslash.  A single quote in the title stands unescaped in the
    [title] field. *)
Theorem js_entry_escaping (asset : Asset) :
  (exists rest,
     js_entry asset =
       join nl [ lit "  {";
                 quoted (lit "    type:  '") (a_type asset) ++ lit ",";
                 quoted (lit "    src:   '") (a_src asset) ++ lit ",";
                 quoted (lit "    thumb: '") (a_thumb asset) ++ lit ",";
                 quoted (lit "    title: '") (a_title asset) ++ lit ",";
                 quoted (lit "    album: '") (a_album asset) ++ lit ",";
                 quoted (lit "    date:  '") (a_date asset) ] ++ rest)
  /\ (forall before after, a_title asset = before ++ ch "'" :: after ->
        occurs_in (lit "    title: '" ++ (before ++ ch "'" :: after) ++ lit "'" ++ lit ",")
                  (js_entry asset))
  /\ (forall v, a_duration asset = Some v ->
        occurs_in (quoted (lit "    duration: '") v) (js_entry asset))
  /\ (forall v, a_layout asset = Some v ->
        occurs_in (quoted (lit "    layout:   '") v) (js_entry asset))
  /\ (forall t ts, a_tags asset = Some (t :: ts) ->
        occurs_in (lit "    tags:     ["
                     ++ join (lit ", ") (map (fun t => lit "'" ++ t ++ lit "'") (t :: ts))
                     ++ lit "]")
                  (js_entry asset))
  /\ (forall v, a_albumTitle asset = Some v -> v <> [] ->
        occurs_in (quoted (lit "    albumTitle: '") (escape_quote v)) (js_entry asset))
  /\ (forall v, a_caption asset = Some v ->
        occurs_in (quoted (lit "    caption:  '") (escape_quote v)) (js_entry asset))
  /\ (forall v, a_credit asset = Some v ->
        occurs_in (quoted (lit "    credit:   '") (escape_quote v)) (js_entry asset))
  /\ (forall v, quotes_escaped (escape_quote v))
  /\ (forall v, escaped_as v (escape_quote v)).
Proof.
  destruct (js_entry_lines_shape asset) as (date_line & more & Hdate & Hmore & Hlines).
  assert (Htrail : forall line, line ∈ js_entry_trailing asset ->
                                occurs_in line (js_entry asset))
    by apply js_entry_trailing_occurs.
  repeat split.
  - unfold js_entry. rewrite Hlines.
    destruct more as [|m more]; [done|].
    match goal with |- context [?l ++ date_line :: _] => set (first6 := l) end.
    set (date := quoted (lit "    date:  '") (a_date asset)) in *.
    assert (first6 <> []) by done.
    destruct Hdate as [-> | ->].
    + exists (nl ++ join nl (m :: more)).
      change (join nl (first6 ++ date :: m :: more)
              = join nl (first6 ++ [date]) ++ nl ++ join nl (m :: more)).
      rewrite !join_app by done. rewrite (join_cons2 nl date), join_singleton.
      by rewrite <- !app_assoc.
    + exists (lit "," ++ nl ++ join nl (m :: more)).
      change (join nl (first6 ++ (date ++ lit ",") :: m :: more)
              = join nl (first6 ++ [date]) ++ lit "," ++ nl ++ join nl (m :: more)).
      rewrite !join_app by done. rewrite (join_cons2 nl (date ++ lit ",")), join_singleton.
      by rewrite <- !app_assoc.
  - intros before after Htitle. unfold js_entry. rewrite <- Htitle.
    rewrite !app_assoc. rewrite <- (app_assoc (lit "    title: '")).
    apply join_elem. rewrite Hlines. unfold quoted.
    rewrite elem_of_app. left. rewrite !elem_of_cons. auto 10.
  - intros v Hv. apply Htrail. unfold js_entry_trailing. rewrite Hv.
    rewrite !elem_of_app. right. left. by apply list_elem_of_singleton.
  - intros v Hv. apply Htrail. unfold js_entry_trailing. rewrite Hv.
    rewrite !elem_of_app. do 6 right. left. by apply list_elem_of_singleton.
  - intros t ts Hv. apply Htrail. unfold js_entry_trailing. rewrite Hv.
    rewrite !elem_of_app. do 7 right. by apply list_elem_of_singleton.
  - intros v Hv Hne. apply Htrail. unfold js_entry_trailing. rewrite Hv.
    destruct v as [|x v]; [done|]. simpl truthy. cbn iota.
    rewrite !elem_of_app. left. by apply list_elem_of_singleton.
  - intros v Hv. apply Htrail. unfold js_entry_trailing. rewrite Hv.
    rewrite !elem_of_app. do 2 right. left. by apply list_elem_of_singleton.
  - intros v Hv. apply Htrail. unfold js_entry_trailing. rewrite Hv.
    rewrite !elem_of_app. do 3 right. left. by apply list_elem_of_singleton.
  - apply escape_quote_escaped.
  - apply escape_quote_escaped_as.
Qed.

(** ** The renderer loop *)

Lemma body_loop_previous (previous : option Asset) (assets : list Asset) :
  body_loop (a_album <$> previous) assets =
    flat_map lines_at_album_start (with_previous previous assets).
Proof.
  revert previous. induction assets as [|asset rest IH]; intros previous; [done|].
  simpl. destruct previous as [p|]; simpl.
  - case_bool_decide as Hsame.
    + injection Hsame as Hsame. rewrite bool_decide_true by done.
      simpl. f_equal. rewrite <- (IH (Some asset)). simpl. by rewrite Hsame.
    + rewrite bool_decide_false by congruence.
      simpl. do 2 f_equal. apply (IH (Some asset)).
  - do 2 f_equal. apply (IH (Some asset)).
Qed.

Lemma body_loop_same_render (current_album : option str) (l1 l2 : list Asset) :
  Forall2 same_render l1 l2 -> body_loop current_album l1 = body_loop current_album l2.
Proof.
  intros HF. revert current_album.
  induction HF as [|a b l1 l2 [Hjs Halbum] _ IH]; intros current_album; [done|].
  simpl. rewrite Hjs, Halbum. case_bool_decide; by rewrite !IH.
Qed.

Lemma new_block_same_render (l1 l2 : list Asset) :
  Forall2 same_render l1 l2 -> new_block l1 = new_block l2.
Proof.
  intros HF. unfold new_block, body_lines.
  by rewrite (body_loop_same_render None l1 l2 HF).
Qed.

Lemma set_tags_None_id (a : Asset) : a_tags a = None -> set_tags None a = a.
Proof. destruct a. simpl. by intros ->. Qed.

Lemma js_entry_set_tags_nil (a : Asset) :
  js_entry (set_tags (Some []) a) = js_entry (set_tags None a).
Proof. reflexivity. Qed.

(** ** Lists *)

Lemma elem_of_map {A B} (f : A -> B) (l : list A) (y : B) :
  y ∈ map f l <-> exists x, y = f x /\ x ∈ l.
Proof. change (map f l) with (f <$> l). apply list_elem_of_fmap. Qed.

Lemma elem_of_flat_map {A B} (f : A -> list B) (l : list A) (y : B) :
  y ∈ flat_map f l <-> exists x, x ∈ l /\ y ∈ f x.
Proof.
  rewrite list_elem_of_In, in_flat_map.
  split; intros (x & H1 & H2); exists x; by rewrite ?list_elem_of_In in *.
Qed.

Lemma Forall2_map_same {A B} (R : B -> B -> Prop) (f g : A -> B) (l : list A) :
  (forall x, x ∈ l -> R (f x) (g x)) -> Forall2 R (map f l) (map g l).
Proof.
  induction l as [|x l IH]; intros H; simpl; constructor.
  - apply H. by left.
  - apply IH. intros y Hy. apply H. by right.
Qed.

Lemma Forall2_flat_map_same {A B} (R : B -> B -> Prop) (f g : A -> list B) (l : list A) :
  (forall x, x ∈ l -> Forall2 R (f x) (g x)) ->
  Forall2 R (flat_map f l) (flat_map g l).
Proof.
  induction l as [|x l IH]; intros H; simpl; [constructor|].
  apply Forall2_app.
  - apply H. by left.
  - apply IH. intros y Hy. apply H. by right.
Qed.

(** ** [sorted] *)

Lemma str_leb_total (a b : str) : str_leb a b = false -> str_leb b a = true.
Proof.
  revert b. induction a as [|x a IH]; intros [|y b]; simpl; try done.
  destruct (N.ltb_spec x y), (N.eqb_spec x y), (N.ltb_spec y x), (N.eqb_spec y x);
    simpl; try done; try lia. apply IH.
Qed.

Lemma str_leb_trans (a b c : str) :
  str_leb a b = true -> str_leb b c = true -> str_leb a c = true.
Proof.
  revert b c. induction a as [|x a IH]; intros [|y b] [|z c]; simpl; try done.
  destruct (N.ltb_spec x y), (N.eqb_spec x y), (N.ltb_spec y z), (N.eqb_spec y z),
    (N.ltb_spec x z), (N.eqb_spec x z); simpl; try done; try lia. apply IH.
Qed.

#[local] Instance str_le_trans : Transitive str_le.
Proof. intros a b c. apply str_leb_trans. Qed.

Lemma insert_sorted_Permutation (x : str) (l : list str) :
  Permutation (insert_sorted x l) (x :: l).
Proof.
  induction l as [|y l IH]; simpl; [done|].
  destruct (str_leb x y); [done|].
  rewrite IH. apply perm_swap.
Qed.

Lemma sorted_Permutation (l : list str) : Permutation (sorted l) l.
Proof.
  induction l as [|x l IH]; simpl; [done|].
  by rewrite insert_sorted_Permutation, IH.
Qed.

Lemma insert_sorted_Sorted (x : str) (l : list str) :
  Sorted str_le l -> Sorted str_le (insert_sorted x l).
Proof.
  induction 1 as [|y l Hl IH Hhd]; simpl.
  - repeat constructor.
  - destruct (str_leb x y) eqn:Hxy.
    + constructor; [by constructor|]. by constructor.
    + constructor; [done|].
      apply str_leb_total in Hxy.
      destruct l as [|z l]; simpl in *.
      * by constructor.
      * destruct (str_leb x z); constructor; [done|].
        by inversion Hhd.
Qed.

Lemma sorted_Sorted (l : list str) : Sorted str_le (sorted l).
Proof.
  induction l as [|x l IH]; simpl; [constructor|].
  by apply insert_sorted_Sorted.
Qed.

Lemma elem_of_sorted (x : str) (l : list str) : x ∈ sorted l <-> x ∈ l.
Proof. by rewrite sorted_Permutation. Qed.

(** ** The scanner: what an entry carries *)

Section ScanFacts.
Context {U : PyCase}.

Variable prefixes : list str.

Lemma enumerate_elem {A} (k : Z) (l : list A) (i : Z) (x : A) :
  (i, x) ∈ enumerate k l -> x ∈ l.
Proof.
  revert k. induction l as [|y l IH]; intros k; simpl.
  - by intros ?%elem_of_nil.
  - intros [[= -> ->]|H]%elem_of_cons; [by left|]. right. by eapply IH.
Qed.

Lemma classify_elem (d : Dir) (names photos videos : list str) :
  classify d names = (photos, videos) ->
  forall f, f ∈ photos \/ f ∈ videos -> f ∈ names.
Proof.
  revert photos videos.
  induction names as [|g names IH]; intros photos videos Hc f Hf; simpl in Hc.
  - injection Hc as <- <-. destruct Hf as [Hf|Hf]; by apply elem_of_nil in Hf.
  - destruct (classify d names) as [ps vs].
    specialize (IH _ _ eq_refl).
    repeat match type of Hc with
           | (if ?b then _ else _) = _ => destruct b
           end;
      injection Hc as <- <-;
      rewrite ?elem_of_cons in Hf; rewrite elem_of_cons;
      destruct Hf as [Hf|Hf]; try destruct Hf as [->|Hf]; auto.
Qed.

(** Both groups keep the order of the listing. *)
Lemma classify_sorted (d : Dir) (names photos videos : list str) :
  StronglySorted str_le names ->
  classify d names = (photos, videos) ->
  StronglySorted str_le photos /\ StronglySorted str_le videos.
Proof.
  intros Hs. revert photos videos.
  induction Hs as [|g names Hs IH Hall]; intros photos videos Hc; simpl in Hc.
  - injection Hc as <- <-. split; constructor.
  - destruct (classify d names) as [ps vs] eqn:Hrest.
    destruct (IH _ _ eq_refl) as [Hps Hvs].
    pose proof (classify_elem _ _ _ _ Hrest) as Hsub.
    assert (Forall (str_le g) ps) as Hgp.
    { apply Forall_forall. intros x Hx.
      apply (proj1 (Forall_forall _ _) Hall). apply Hsub. by left. }
    assert (Forall (str_le g) vs) as Hgv.
    { apply Forall_forall. intros x Hx.
      apply (proj1 (Forall_forall _ _) Hall). apply Hsub. by right. }
    repeat match type of Hc with
           | (if ?b then _ else _) = _ => destruct b
           end;
      injection Hc as <- <-; split; try done; by constructor.
Qed.

Lemma map_enumerate {A B} (g : A -> B) (f : Z * A -> B) (k : Z) (l : list A) :
  (forall i x, f (i, x) = g x) -> map f (enumerate k l) = map g l.
Proof.
  intros Hf. revert k. induction l as [|x l IH]; intros k; simpl; [done|].
  by rewrite Hf, IH.
Qed.

Section Attach.
Variables (tags_data : gmap str (list str)) (album : str) (album_dir : AlbumDir).

Lemma attach_tags (fname : str) (entry : Asset) :
  a_tags (attach_meta_and_tags tags_data album album_dir fname entry) =
    match tags_data !! rel_path album fname with
    | Some tags => Some tags
    | None => a_tags entry
    end.
Proof.
  unfold attach_meta_and_tags.
  destruct (tags_data !! rel_path album fname); [done|].
  by destruct (_ !! fname).
Qed.

Lemma attach_src (fname : str) (entry : Asset) :
  a_src (attach_meta_and_tags tags_data album album_dir fname entry) = a_src entry.
Proof.
  unfold attach_meta_and_tags.
  by destruct (tags_data !! _), (_ !! fname).
Qed.

Lemma attach_album (fname : str) (entry : Asset) :
  a_album (attach_meta_and_tags tags_data album album_dir fname entry) = a_album entry.
Proof.
  unfold attach_meta_and_tags.
  by destruct (tags_data !! _), (_ !! fname).
Qed.

Lemma attach_type (fname : str) (entry : Asset) :
  a_type (attach_meta_and_tags tags_data album album_dir fname entry) = a_type entry.
Proof.
  unfold attach_meta_and_tags.
  by destruct (tags_data !! _), (_ !! fname).
Qed.

Lemma attach_albumTitle (fname : str) (entry : Asset) :
  a_albumTitle (attach_meta_and_tags tags_data album album_dir fname entry)
    = a_albumTitle entry.
Proof.
  unfold attach_meta_and_tags.
  by destruct (tags_data !! _), (_ !! fname).
Qed.

(** Every entry of an album is built for one of its listed files and
    carries the album, the path of the file, and the tags the
    document has under that path. *)
Lemma scan_album_entry (a : Asset) :
  a ∈ scan_album prefixes tags_data album album_dir ->
  exists fname,
    fname ∈ sorted (listdir (files album_dir))
    /\ a_src a = rel_path album fname
    /\ a_album a = album
    /\ a_tags a = tags_data !! rel_path album fname.
Proof.
  unfold scan_album.
  destruct (classify _ _) as [photos videos] eqn:Hc.
  pose proof (classify_elem _ _ _ _ Hc) as Hsub.
  intros [Ha|Ha]%elem_of_app;
    apply elem_of_map in Ha as ([i fname] & -> & Hin);
    apply enumerate_elem in Hin; exists fname.
  - split; [apply Hsub; by left|].
    unfold photo_entry. rewrite attach_src, attach_album, attach_tags.
    destruct (truthy _ && _); simpl; by destruct (tags_data !! _).
  - split; [apply Hsub; by right|].
    unfold video_entry. rewrite attach_src, attach_album, attach_tags.
    destruct (truthy _ && bool_decide _); simpl; by destruct (tags_data !! _).
Qed.
End Attach.

(** C6.  Every asset of the scan stands for a listed file of one of
    the albums, and its [tags] field is what the tag document has under
    the path [album/filename] of that file: the list as it is there,
    the empty list included, and no field when the path is not a key
    (or when the document is absent or unreadable). *)
Theorem scan_tags_from_document (s : Snapshot) (a : Asset) :
  a ∈ fst (scan_portfolio_in prefixes s) ->
  (exists album fname,
      album ∈ snd (scan_portfolio_in prefixes s)
      /\ fname ∈ listdir (files (album_dir_of s album))
      /\ a_album a = album
      /\ a_src a = rel_path album fname)
  /\ a_tags a = load_tags s !! a_src a
  /\ (forall doc, tags_json s = TagsObject doc -> a_tags a = doc !! a_src a)
  /\ (tags_json s = TagsAbsent \/ tags_json s = TagsMalformed -> a_tags a = None).
Proof.
  unfold scan_portfolio_in. simpl.
  intros (album & Halbum & Ha)%elem_of_flat_map.
  apply scan_album_entry in Ha as (fname & Hf & Hsrc & Halb & Htags).
  apply (proj1 (elem_of_sorted _ _)) in Hf.
  assert (a_tags a = load_tags s !! a_src a) as Hload by by rewrite Hsrc.
  split; [by exists album, fname|].
  split; [done|]. split.
  - intros doc Hdoc. rewrite Hload. unfold load_tags. by rewrite Hdoc.
  - intros Hnone. rewrite Hload. unfold load_tags.
    by destruct Hnone as [-> | ->].
Qed.

(** ** Empty tag lists *)

Lemma attach_same_render (t1 t2 : gmap str (list str)) (album : str)
    (album_dir : AlbumDir) (fname : str) (entry : Asset) :
  same_but_empty_lists t1 t2 ->
  a_tags entry = None ->
  same_render (attach_meta_and_tags t1 album album_dir fname entry)
              (attach_meta_and_tags t2 album album_dir fname entry).
Proof.
  intros Hdocs Hnone. unfold attach_meta_and_tags.
  set (merged := match _ !! fname with
                 | Some meta_for_file => merge_meta entry meta_for_file
                 | None => entry
                 end).
  assert (a_tags merged = None) as Hmerged
    by (subst merged; by destruct (_ !! fname)).
  destruct (Hdocs (rel_path album fname)) as [-> | [-> ->]].
  - done.
  - split; [|done].
    by rewrite js_entry_set_tags_nil, set_tags_None_id.
Qed.

Lemma scan_album_same_render (t1 t2 : gmap str (list str)) (album : str)
    (album_dir : AlbumDir) :
  same_but_empty_lists t1 t2 ->
  Forall2 same_render (scan_album prefixes t1 album album_dir)
                      (scan_album prefixes t2 album album_dir).
Proof.
  intros Hdocs. unfold scan_album.
  destruct (classify _ _) as [photos videos].
  apply Forall2_app; apply Forall2_map_same; intros [i fname] _.
  - unfold photo_entry. apply attach_same_render; [done|].
    by destruct (truthy _ && _).
  - unfold video_entry. apply attach_same_render; [done|].
    by destruct (truthy _ && bool_decide _).
Qed.

(** C10.  A record whose tag list is empty is serialized exactly like
    the record without a tags field; the tags line is appended to the
    optional fields only for a non-empty list; and giving a path the
    empty list in the tag document renders the same block as leaving
    the path out of the document. *)
Theorem empty_tags_not_rendered (asset : Asset) :
  js_entry (set_tags (Some []) asset) = js_entry (set_tags None asset)
  /\ (forall tags,
        js_entry_trailing (set_tags tags asset) =
          js_entry_trailing (set_tags None asset)
            ++ match tags with
               | Some (t :: ts) => [tags_line (t :: ts)]
               | _ => []
               end)
  /\ (forall (s : Snapshot) (doc : gmap str (list str)) (key : str),
        tags_json s = TagsObject doc ->
        doc !! key = Some [] ->
        new_block (fst (scan_portfolio_in prefixes s)) =
          new_block (fst (scan_portfolio_in prefixes
                            (with_tags_json (TagsObject (delete key doc)) s)))).
Proof.
  split; [reflexivity|]. split.
  - intros tags. unfold js_entry_trailing. simpl.
    rewrite app_nil_r. by rewrite <- !app_assoc.
  - intros s doc key Hdoc Hkey. apply new_block_same_render.
    unfold scan_portfolio_in, load_tags. simpl. rewrite Hdoc.
    apply Forall2_flat_map_same. intros album _.
    apply scan_album_same_render. intros k.
    destruct (decide (k = key)) as [-> | Hne].
    + right. by rewrite lookup_delete_eq.
    + left. by rewrite lookup_delete_ne.
Qed.

(** ** Where the album title goes *)

Lemma photo_entry_albumTitle (tags_data : gmap str (list str)) (album : str)
    (album_dir : AlbumDir) (photos : list str) (i : Z) (fname : str) :
  a_albumTitle (photo_entry prefixes tags_data album album_dir photos i fname)
    = if truthy (snd (load_album_meta album_dir)) && (i =? 1)%Z
      then snd (load_album_meta album_dir) else None.
Proof.
  unfold photo_entry. rewrite attach_albumTitle.
  destruct (snd (load_album_meta album_dir)) as [[|c t]|]; try done.
  by destruct (i =? 1)%Z.
Qed.

Lemma video_entry_albumTitle (tags_data : gmap str (list str)) (album : str)
    (album_dir : AlbumDir) (photos videos : list str) (i : Z) (fname : str) :
  a_albumTitle (video_entry prefixes tags_data album album_dir photos videos i fname)
    = if truthy (snd (load_album_meta album_dir)) && bool_decide (photos = [])
      then snd (load_album_meta album_dir) else None.
Proof.
  unfold video_entry. rewrite attach_albumTitle.
  destruct (snd (load_album_meta album_dir)) as [[|c t]|]; try done.
  by destruct (bool_decide (photos = [])).
Qed.

Lemma map_enumerate_from {A B} (g : B) (f : Z * A -> B) (k : Z) (l : list A) :
  (forall i x, (k <= i)%Z -> f (i, x) = g) ->
  map f (enumerate k l) = repeat g (length l).
Proof.
  revert k. induction l as [|x l IH]; intros k Hf; simpl; [done|].
  rewrite Hf by lia. f_equal. apply IH. intros i y Hi. apply Hf. lia.
Qed.

(** In an album with a title of its own, the title is on the first photo
    alone when the album has photos, and on every video when it has
    none. *)
Lemma scan_album_albumTitle (tags_data : gmap str (list str)) (album : str)
    (album_dir : AlbumDir) (photos videos : list str) :
  classify (files album_dir) (sorted (listdir (files album_dir))) = (photos, videos) ->
  truthy (snd (load_album_meta album_dir)) = true ->
  map a_albumTitle (scan_album prefixes tags_data album album_dir) =
    match photos with
    | [] => repeat (snd (load_album_meta album_dir)) (length videos)
    | _ :: rest => snd (load_album_meta album_dir)
                     :: repeat None (length rest + length videos)
    end.
Proof.
  intros Hc Htitle. unfold scan_album. rewrite Hc, map_app, !map_map.
  destruct photos as [|p rest]; simpl.
  - apply map_enumerate_from. intros i x _.
    by rewrite video_entry_albumTitle, Htitle.
  - rewrite photo_entry_albumTitle, Htitle. simpl. f_equal.
    rewrite repeat_app. f_equal.
    + apply map_enumerate_from. intros i x Hi.
      rewrite photo_entry_albumTitle, Htitle.
      by replace (i =? 1)%Z with false by lia.
    + apply map_enumerate_from. intros i x _.
      by rewrite video_entry_albumTitle, Htitle.
Qed.

(** Every entry is titled by [make_title] from its position in its group
    and the size of the group. *)
Lemma scan_album_titles (tags_data : gmap str (list str)) (album : str)
    (album_dir : AlbumDir) (photos videos : list str) :
  classify (files album_dir) (sorted (listdir (files album_dir))) = (photos, videos) ->
  map a_title (scan_album prefixes tags_data album album_dir) =
    map (fun '(i, fname) =>
           make_title_in prefixes album fname i (Z.of_nat (length photos)))
        (enumerate 1 photos)
    ++ map (fun '(i, fname) =>
              make_title_in prefixes album fname i (Z.of_nat (length videos)))
           (enumerate 1 videos).
Proof.
  intros Hc. unfold scan_album. rewrite Hc, map_app, !map_map.
  f_equal; apply map_ext; intros [i fname].
  - unfold photo_entry, attach_meta_and_tags.
    by destruct (truthy _ && _), (tags_data !! _), (_ !! fname).
  - unfold video_entry, attach_meta_and_tags.
    by destruct (truthy _ && bool_decide _), (tags_data !! _), (_ !! fname).
Qed.

(** ** The order of the scan and of the rendered body *)

Lemma photo_entry_key (tags_data : gmap str (list str)) (album : str)
    (album_dir : AlbumDir) (photos : list str) (i : Z) (fname : str) :
  order_key (photo_entry prefixes tags_data album album_dir photos i fname)
    = (album, lit "photo", rel_path album fname).
Proof.
  unfold order_key, photo_entry. rewrite attach_album, attach_type, attach_src.
  by destruct (truthy _ && _).
Qed.

Lemma video_entry_key (tags_data : gmap str (list str)) (album : str)
    (album_dir : AlbumDir) (photos videos : list str) (i : Z) (fname : str) :
  order_key (video_entry prefixes tags_data album album_dir photos videos i fname)
    = (album, lit "video", rel_path album fname).
Proof.
  unfold order_key, video_entry. rewrite attach_album, attach_type, attach_src.
  by destruct (truthy _ && bool_decide _).
Qed.

Lemma scan_album_order (tags_data : gmap str (list str)) (album : str)
    (album_dir : AlbumDir) :
  exists photos videos,
    Sorted str_le photos /\ Sorted str_le videos
    /\ map order_key (scan_album prefixes tags_data album album_dir)
         = map (fun f => (album, lit "photo", rel_path album f)) photos
           ++ map (fun f => (album, lit "video", rel_path album f)) videos.
Proof.
  unfold scan_album.
  destruct (classify _ _) as [photos videos] eqn:Hc.
  exists photos, videos.
  apply classify_sorted in Hc as [Hp Hv];
    [|apply Sorted_StronglySorted; [apply str_le_trans|apply sorted_Sorted]].
  split; [by apply StronglySorted_Sorted|].
  split; [by apply StronglySorted_Sorted|].
  rewrite map_app, !map_map. f_equal; apply map_enumerate; intros i x.
  - apply photo_entry_key.
  - apply video_entry_key.
Qed.

Lemma is_record_line_record (asset : Asset) :
  is_record_line (record_line asset) = true.
Proof.
  unfold is_record_line, record_line, js_entry.
  destruct (js_entry_lines_shape asset) as (date_line & more & _ & _ & ->).
  cbn [app]. rewrite join_cons2, <- !app_assoc. apply startswith_app.
Qed.

Lemma records_of_body_loop (current_album : option str) (assets : list Asset) :
  List.filter is_record_line (body_loop current_album assets) = map record_line assets.
Proof.
  revert current_album. induction assets as [|asset rest IH]; intros current_album;
    [done|].
  simpl. case_bool_decide; simpl.
  - fold (record_line asset). by rewrite is_record_line_record, IH.
  - fold (record_line asset).
    replace (is_record_line (separator (a_album asset))) with false by reflexivity.
    by rewrite is_record_line_record, IH.
Qed.

(** C7 (as the code has it).  The assets come album by album in the
    sorted order of the album names, within an album the photos before
    the videos, each group in the sorted order of the file names; the
    body has the record of every asset, once and in that order; and a
    separator stands before the first record and before every record
    whose album differs from the album of the record before it, and
    nowhere else. *)
Theorem render_in_scanner_order (s : Snapshot) :
  let assets := fst (scan_portfolio_in prefixes s) in
  let albums := snd (scan_portfolio_in prefixes s) in
  Sorted str_le albums
  /\ assets = flat_map (fun album =>
                 scan_album prefixes (load_tags s) album (album_dir_of s album)) albums
  /\ (forall album, exists photos videos,
        Sorted str_le photos /\ Sorted str_le videos
        /\ map order_key (scan_album prefixes (load_tags s) album (album_dir_of s album))
             = map (fun f => (album, lit "photo", rel_path album f)) photos
               ++ map (fun f => (album, lit "video", rel_path album f)) videos)
  /\ List.filter is_record_line (body_lines assets) = map record_line assets
  /\ body_lines assets = flat_map lines_at_album_start (with_previous None assets).
Proof.
  simpl. split; [apply sorted_Sorted|]. split; [done|].
  split; [intros album; apply scan_album_order|].
  split; [apply records_of_body_loop|].
  apply (body_loop_previous None).
Qed.

End ScanFacts.

(** C7 (as stated) fails on an album with a single photo: the body has a
    separator although no two consecutive records exist. *)
Lemma separator_before_first_record :
  let assets := fst (scan_portfolio (U := AsciiCase.ascii_case) one_photo_album) in
  length assets = 1%nat
  /\ body_lines assets <> flat_map lines_at_album_change (with_previous None assets).
Proof.
  split; [reflexivity|].
  intros H. apply (f_equal length) in H. vm_compute in H. discriminate H.
Qed.

(** ** The title deriver *)

Lemma zfill_length (s : str) (width : nat) :
  length (zfill s width) = Nat.max width (length s).
Proof.
  unfold zfill. destruct (width <=? length s)%nat eqn:Hw.
  - apply Nat.leb_le in Hw. lia.
  - apply Nat.leb_gt in Hw. destruct s as [|c s].
    + rewrite repeat_length. simpl. lia.
    + destruct ((c =? ch "+") || (c =? ch "-")); simpl in *;
        rewrite length_app, repeat_length; simpl; lia.
Qed.

Lemma existsb_Permutation {A} (f : A -> bool) (l l' : list A) :
  Permutation l l' -> existsb f l = existsb f l'.
Proof.
  induction 1 as [|x l l' _ IH|x y l|l l' l'' _ IH1 _ IH2]; simpl.
  - done.
  - by rewrite IH.
  - by destruct (f x), (f y).
  - by rewrite IH1.
Qed.

Section TitleFacts.
Context {U : PyCase}.

Lemma numbered_nonempty (head : str) (index total : Z) :
  numbered head index total <> [].
Proof.
  unfold numbered. intros H. apply (f_equal length) in H.
  rewrite !length_app in H.
  assert (length (lit " — ") = 3%nat) as Hlit by reflexivity.
  simpl in H. lia.
Qed.

(** The loop over the generic prefixes only asks whether some prefix
    matches. *)
Lemma generic_loop_existsb (prefixes : list str) (stem_lower fallback : str) :
  generic_loop prefixes stem_lower fallback =
    if existsb (fun prefix => bool_decide (stem_lower = prefix)
                              || startswith stem_lower prefix) prefixes
    then Some fallback else None.
Proof.
  induction prefixes as [|prefix rest IH]; simpl; [done|].
  by destruct (bool_decide _ || startswith _ _).
Qed.

Lemma generic_loop_Permutation (order1 order2 : list str) (stem_lower fallback : str) :
  Permutation order1 order2 ->
  generic_loop order1 stem_lower fallback = generic_loop order2 stem_lower fallback.
Proof.
  intros HP. rewrite !generic_loop_existsb.
  by rewrite (existsb_Permutation _ _ _ HP).
Qed.

Lemma make_title_in_Permutation (order1 order2 : list str)
    (album filename : str) (index total : Z) :
  Permutation order1 order2 ->
  make_title_in order1 album filename index total
    = make_title_in order2 album filename index total.
Proof.
  intros HP. unfold make_title_in.
  by rewrite (generic_loop_Permutation _ _ _ _ HP).
Qed.

(** C5.  When the cleaned stem is empty or shorter than two
    characters, the title is the capitalized album, the dash, and the
    index filled with zeros to the number of digits of the total. *)
Theorem make_title_numeric_fallback (album filename : str) (index total : Z) :
  clean_stem filename = [] \/ (length (clean_stem filename) < 2)%nat ->
  make_title album filename index total
    = capitalize album ++ lit " — " ++ zfill (py_str index) (length (py_str total))
  /\ length (zfill (py_str index) (length (py_str total)))
     = Nat.max (length (py_str total)) (length (py_str index)).
Proof.
  intros Hshort. split; [|apply zfill_length].
  unfold make_title, make_title_in.
  replace (bool_decide (clean_stem filename = []) || (length (clean_stem filename) <? 2)%nat)
    with true; [done|].
  symmetry. apply orb_true_iff. destruct Hshort as [H|H].
  - left. by apply bool_decide_eq_true.
  - right. by apply Nat.ltb_lt.
Qed.

Lemma make_title_in_nonempty (prefixes : list str) (album filename : str)
    (index total : Z) :
  (forall s, s <> [] -> title_case s <> []) ->
  make_title_in prefixes album filename index total <> [].
Proof.
  intros Htitle. unfold make_title_in.
  destruct (bool_decide (clean_stem filename = [])) eqn:Hempty.
  - apply numbered_nonempty.
  - apply bool_decide_eq_false in Hempty.
    destruct (length (clean_stem filename) <? 2)%nat; [apply numbered_nonempty|].
    cbn [orb]. rewrite generic_loop_existsb. destruct (existsb _ _).
    + apply numbered_nonempty.
    + destruct (total >? 1)%Z; [apply numbered_nonempty|]. by apply Htitle.
Qed.

(** C8.  On every input [make_title] returns a string, and the string
    is not empty, given that title-casing a non-empty string does not
    yield the empty string. *)
Theorem make_title_nonempty (album filename : str) (index total : Z) :
  (forall s, s <> [] -> title_case s <> []) ->
  exists t, make_title album filename index total = t /\ t <> [].
Proof.
  intros Htitle. eexists. split; [reflexivity|].
  by apply make_title_in_nonempty.
Qed.

End TitleFacts.

Lemma make_title_numeric_fallback_witness :
  make_title (U := AsciiCase.ascii_case) (lit "urban") (lit "a.jpg") 7 12
    = AsciiCase.capitalize_ascii (lit "urban") ++ lit " — "
        ++ zfill (py_str 7) (length (py_str 12))
  /\ length (zfill (py_str 7) (length (py_str 12)))
     = Nat.max (length (py_str 12)) (length (py_str 7)).
Proof.
  apply (make_title_numeric_fallback (U := AsciiCase.ascii_case)).
  right. vm_compute. lia.
Defined.

Example make_title_uuid_only :
  make_title (U := AsciiCase.ascii_case) (lit "urban")
    (lit "0a1b2c3d-AAAA-bbbb-cccc-0123456789ab.jpg") 3 120
    = lit "Urban — 003".
Proof. vm_compute. reflexivity. Qed.

Example make_title_hash_suffix :
  make_title (U := AsciiCase.ascii_case) (lit "urban")
    (lit "night_sky-PG0ypRgDrFtnBmIDPB3G.jpg") 1 1
    = lit "Night Sky".
Proof. vm_compute. reflexivity. Qed.

Example make_title_generic_prefix :
  make_title (U := AsciiCase.ascii_case) (lit "urban") (lit "IMG_1234.jpg") 7 12
    = lit "Urban — 07".
Proof. vm_compute. reflexivity. Qed.

Lemma ascii_title_nonempty (s : str) : s <> [] -> AsciiCase.title_from false s <> [].
Proof. by destruct s. Qed.

Lemma make_title_nonempty_witness :
  exists t, make_title (U := AsciiCase.ascii_case) (lit "70s") (lit "it's.jpg") 1 1 = t
            /\ t <> [].
Proof.
  apply (make_title_nonempty (U := AsciiCase.ascii_case)).
  apply ascii_title_nonempty.
Defined.

(** ** Two runs *)

Section TwoRuns.
Context {U : PyCase} {R : PyRe}.

Lemma scan_portfolio_in_Permutation (order1 order2 : list str) (s : Snapshot) :
  Permutation order1 order2 ->
  scan_portfolio_in order1 s = scan_portfolio_in order2 s.
Proof.
  intros HP. unfold scan_portfolio_in. f_equal.
  apply flat_map_ext. intros album. unfold scan_album.
  destruct (classify _ _) as [photos videos].
  f_equal; apply map_ext; intros [i fname].
  - unfold photo_entry. by rewrite (make_title_in_Permutation _ _ _ _ _ _ HP).
  - unfold video_entry. by rewrite (make_title_in_Permutation _ _ _ _ _ _ HP).
Qed.

(** C2.  Two runs over the same snapshot render the same block: the
    block is computed from the snapshot alone, so it depends neither on
    the page the first run left behind nor on the order in which each
    process happens to iterate the set of generic prefixes. *)
Theorem pipeline_idempotent (order1 order2 : list str) (s : Snapshot) (w : World) :
  Permutation GENERIC_PREFIXES order1 ->
  Permutation GENERIC_PREFIXES order2 ->
  let first := run_pipeline order1 s w in
  let second := run_pipeline order2 s (snd (snd first)) in
  fst second = fst first
  /\ fst first = rendered_block GENERIC_PREFIXES s.
Proof.
  intros H1 H2 first second. subst first second.
  unfold run_pipeline, rendered_block. cbn [fst snd].
  rewrite <- (scan_portfolio_in_Permutation _ _ s H1).
  by rewrite <- (scan_portfolio_in_Permutation _ _ s H2).
Qed.

End TwoRuns.

(** ** The thumbnail resolver *)

Lemma rel_path_nonempty (album name : str) : rel_path album name <> [].
Proof.
  unfold rel_path. intros H. apply (f_equal length) in H.
  rewrite !length_app in H.
  assert (length (lit "/") = 1%nat) as Hlit by reflexivity.
  simpl in H. lia.
Qed.

Section ThumbFacts.
Context {U : PyCase}.

Lemma foldl_files_lower (l : list str) (m0 : gmap str str) (k : str) :
  match foldl (fun m f => <[lower f := f]> m) m0 l !! k with
  | Some f => (f ∈ l /\ lower f = k) \/ m0 !! k = Some f
  | None => m0 !! k = None /\ forall f, f ∈ l -> lower f <> k
  end.
Proof.
  revert m0. induction l as [|x l IH]; intros m0; simpl.
  - destruct (m0 !! k) eqn:Hk; [by right|].
    split; [done|]. by intros f ?%elem_of_nil.
  - specialize (IH (<[lower x := x]> m0)).
    destruct (foldl _ _ l !! k) as [f|].
    + destruct IH as [[Hf Hk]|Hins].
      * left. split; [by right|done].
      * destruct (decide (lower x = k)) as [Hx|Hx].
        -- rewrite Hx, lookup_insert_eq in Hins. injection Hins as ->.
           left. split; [by left|done].
        -- rewrite lookup_insert_ne in Hins by done. by right.
    + destruct IH as [Hins Hall].
      destruct (decide (lower x = k)) as [Hx|Hx].
      * by rewrite Hx, lookup_insert_eq in Hins.
      * rewrite lookup_insert_ne in Hins by done. split; [done|].
        intros f [->|Hf]%elem_of_cons; [done|by apply Hall].
Qed.

Lemma files_lower_Some (d : Dir) (k f : str) :
  files_lower_of d !! k = Some f -> named d k f.
Proof.
  intros Hk. unfold files_lower_of in Hk.
  pose proof (foldl_files_lower (List.filter (isfile d) (listdir d)) ∅ k) as H.
  rewrite Hk in H. destruct H as [H|H]; [done|].
  by rewrite lookup_empty in H.
Qed.

Lemma files_lower_None (d : Dir) (k : str) :
  files_lower_of d !! k = None -> ~ present d k.
Proof.
  intros Hk [f [Hf Hlow]]. unfold files_lower_of in Hk.
  pose proof (foldl_files_lower (List.filter (isfile d) (listdir d)) ∅ k) as H.
  rewrite Hk in H. destruct H as [_ H]. by apply (H f).
Qed.

Lemma first_key_Some (d : Dir) (candidates : list str) (f : str) :
  first_key candidates (files_lower_of d) = Some f ->
  exists c, first_such (present d) candidates c /\ named d c f.
Proof.
  induction candidates as [|c rest IH]; simpl; [done|].
  destruct (files_lower_of d !! c) as [g|] eqn:Hc.
  - intros [= ->]. apply files_lower_Some in Hc.
    exists c. split; [|done].
    exists [], rest. split; [done|]. split; [by exists f|].
    by intros y ?%elem_of_nil.
  - intros (c' & (before & after & -> & Hp & Hnot) & Hnamed)%IH.
    exists c'. split; [|done].
    exists (c :: before), after. split; [done|]. split; [done|].
    intros y [->|Hy]%elem_of_cons; [by apply files_lower_None|by apply Hnot].
Qed.

Lemma first_key_None (d : Dir) (candidates : list str) :
  first_key candidates (files_lower_of d) = None ->
  forall c, c ∈ candidates -> ~ present d c.
Proof.
  induction candidates as [|c rest IH]; simpl.
  - by intros _ c ?%elem_of_nil.
  - destruct (files_lower_of d !! c) as [g|] eqn:Hc; [done|].
    intros Hrest c' [->|Hc']%elem_of_cons; [by apply files_lower_None|by apply IH].
Qed.

Lemma first_photo_unfold (d : Dir) (f : str) (rest : list str) :
  first_photo d (f :: rest) = if plain_photo d f then Some f else first_photo d rest.
Proof.
  unfold plain_photo. simpl.
  destruct (reserved (lower f)); [done|].
  destruct (has_poster_suffix (lower f)); [done|].
  cbn [negb andb]. done.
Qed.

Lemma first_photo_Some (d : Dir) (names : list str) (f : str) :
  first_photo d names = Some f ->
  first_such (fun g => plain_photo d g = true) names f.
Proof.
  induction names as [|g rest IH]; [done|].
  rewrite first_photo_unfold. destruct (plain_photo d g) eqn:Hg.
  - intros [= ->]. exists [], rest. split; [done|]. split; [done|].
    by intros y ?%elem_of_nil.
  - intros (before & after & -> & Hp & Hnot)%IH.
    exists (g :: before), after. split; [done|]. split; [done|].
    intros y [->|Hy]%elem_of_cons; [by rewrite Hg|by apply Hnot].
Qed.

Lemma first_photo_None (d : Dir) (names : list str) :
  first_photo d names = None -> forall g, g ∈ names -> plain_photo d g = false.
Proof.
  induction names as [|g rest IH]; [by intros _ g ?%elem_of_nil|].
  rewrite first_photo_unfold. destruct (plain_photo d g) eqn:Hg; [done|].
  intros Hrest g' [->|Hg']%elem_of_cons; [done|by apply IH].
Qed.

Lemma attach_thumb (tags_data : gmap str (list str)) (album : str)
    (album_dir : AlbumDir) (fname : str) (entry : Asset) :
  a_thumb (attach_meta_and_tags tags_data album album_dir fname entry) = a_thumb entry.
Proof.
  unfold attach_meta_and_tags.
  by destruct (tags_data !! _), (_ !! fname).
Qed.

(** C4.  The poster of a video is, in this order: the file named after
    the video ([{stem}_poster] with [.jpg], then [.jpeg], then [.png]);
    else the file under the first reserved poster name that is there;
    else the first file of the sorted listing that is a photo, not a
    reserved name and not a generated poster; else [None], and then the
    entry takes the path of the video itself as its thumbnail.  Names
    are compared after lowering, among the regular files. *)
Theorem find_thumb_priority (d : Dir) (album video : str) :
  let stem := fst (splitext video) in
  let own := [ lower (stem ++ POSTER_SUFFIX ++ lit ".jpg");
               lower (stem ++ POSTER_SUFFIX ++ lit ".jpeg");
               lower (stem ++ POSTER_SUFFIX ++ lit ".png") ] in
  match find_thumb_for_video d album video with
  | Some thumb =>
    exists f,
      thumb = rel_path album f
      /\ ((exists c, first_such (present d) own c /\ named d c f)
          \/ ((forall c, c ∈ own -> ~ present d c)
              /\ exists c, first_such (present d) POSTER_NAMES c /\ named d c f)
          \/ ((forall c, c ∈ own -> ~ present d c)
              /\ (forall c, c ∈ POSTER_NAMES -> ~ present d c)
              /\ first_such (fun g => plain_photo d g = true) (sorted (listdir d)) f))
  | None =>
    (forall c, c ∈ own -> ~ present d c)
    /\ (forall c, c ∈ POSTER_NAMES -> ~ present d c)
    /\ (forall g, g ∈ listdir d -> plain_photo d g = false)
  end
  /\ forall prefixes tags_data meta photos videos i,
       a_thumb (video_entry prefixes tags_data album
                  {| files := d; meta_json := meta |} photos videos i video)
       = match find_thumb_for_video d album video with
         | Some thumb => thumb
         | None => rel_path album video
         end.
Proof.
  intros stem own. split.
  - unfold find_thumb_for_video.
    change (video_poster_candidates video) with own.
    destruct (first_key own _) as [f|] eqn:H1.
    { exists f. split; [done|]. left. by apply first_key_Some. }
    pose proof (first_key_None _ _ H1) as Hown.
    destruct (first_key POSTER_NAMES _) as [f|] eqn:H2.
    { exists f. split; [done|]. right. left. split; [done|]. by apply first_key_Some. }
    pose proof (first_key_None _ _ H2) as Hreserved.
    destruct (first_photo d _) as [f|] eqn:H3.
    { exists f. split; [done|]. do 2 right. do 2 (split; [done|]).
      by apply first_photo_Some. }
    do 2 (split; [done|]). intros g Hg.
    apply (first_photo_None _ _ H3). by apply elem_of_sorted.
  - intros prefixes tags_data meta photos videos i.
    unfold video_entry. rewrite attach_thumb. simpl files.
    assert (forall t, find_thumb_for_video d album video = Some t -> t <> []) as Hne.
    { unfold find_thumb_for_video. intros t.
      repeat match goal with
             | |- context [match ?x with Some _ => _ | None => _ end] => destruct x
             end; intros [= <-]; apply rel_path_nonempty. }
    destruct (find_thumb_for_video d album video) as [[|c t]|] eqn:Hfind.
    + by destruct (Hne [] eq_refl).
    + by destruct (truthy _ && bool_decide _).
    + by destruct (truthy _ && bool_decide _).
Qed.

End ThumbFacts.

(** ** The pipeline on sample inputs *)

Example find_thumb_own_poster :
  find_thumb_for_video (U := AsciiCase.ascii_case) poster_dir (lit "70s") (lit "clip.mp4")
    = Some (lit "70s/clip_poster.png").
Proof. vm_compute. reflexivity. Qed.

Example find_thumb_album_poster :
  find_thumb_for_video (U := AsciiCase.ascii_case) cover_dir (lit "70s") (lit "clip.mp4")
    = Some (lit "70s/poster.png").
Proof. vm_compute. reflexivity. Qed.

Example find_thumb_first_photo :
  find_thumb_for_video (U := AsciiCase.ascii_case) photo_dir (lit "70s") (lit "clip.mp4")
    = Some (lit "70s/a.jpg").
Proof. vm_compute. reflexivity. Qed.

Example find_thumb_none :
  find_thumb_for_video (U := AsciiCase.ascii_case) bare_dir (lit "70s") (lit "clip.mp4")
    = None.
Proof. vm_compute. reflexivity. Qed.

(** Names are matched whatever their case. *)
Example find_thumb_upper_case :
  find_thumb_for_video (U := AsciiCase.ascii_case) upper_case_dir (lit "70s")
    (lit "clip.mp4")
    = Some (lit "70s/CLIP_POSTER.JPG").
Proof. vm_compute. reflexivity. Qed.

Lemma find_thumb_priority_witness :
  a_thumb (video_entry (U := AsciiCase.ascii_case) GENERIC_PREFIXES ∅ (lit "70s")
             {| files := bare_dir; meta_json := MetaAbsent |} [] [lit "clip.mp4"] 1
             (lit "clip.mp4"))
    = match find_thumb_for_video (U := AsciiCase.ascii_case) bare_dir (lit "70s")
              (lit "clip.mp4") with
      | Some thumb => thumb
      | None => rel_path (lit "70s") (lit "clip.mp4")
      end.
Proof.
  apply (proj2 (find_thumb_priority (U := AsciiCase.ascii_case) bare_dir (lit "70s")
                  (lit "clip.mp4"))).
Defined.

Lemma scan_tags_from_document_witness :
  a_tags x_asset = load_tags tagged_album !! a_src x_asset
  /\ a_tags x_asset = Some [lit "urban"].
Proof.
  split; [|vm_compute; reflexivity].
  refine (proj1 (proj2 (scan_tags_from_document (U := AsciiCase.ascii_case)
                          GENERIC_PREFIXES tagged_album x_asset _))).
  vm_compute. apply list_elem_of_here.
Defined.

Lemma empty_tags_not_rendered_witness :
  new_block (fst (scan_portfolio (U := AsciiCase.ascii_case) tagged_album))
    = new_block (fst (scan_portfolio (U := AsciiCase.ascii_case)
                        (with_tags_json
                           (TagsObject (delete (lit "70s/z.jpg")
                                          (<[lit "70s/x.jpg" := [lit "urban"]]>
                                             (<[lit "70s/z.jpg" := []]> ∅))))
                           tagged_album))).
Proof.
  apply (proj2 (proj2 (empty_tags_not_rendered (U := AsciiCase.ascii_case)
                         GENERIC_PREFIXES blank_asset))).
  - reflexivity.
  - vm_compute. reflexivity.
Defined.

Lemma js_entry_escaping_witness :
  occurs_in (lit "    title: '" ++ (lit "It" ++ ch "'" :: lit "S") ++ lit "'" ++ lit ",")
            (js_entry quote_asset)
  /\ occurs_in (quoted (lit "    caption:  '") (lit "Rock \'n\' roll"))
               (js_entry b_asset)
  /\ escaped_as (lit "Rock 'n' roll") (lit "Rock \'n\' roll").
Proof.
  split; [|split].
  - apply (proj1 (proj2 (js_entry_escaping quote_asset))).
    vm_compute. reflexivity.
  - assert (a_caption b_asset = Some (lit "Rock 'n' roll")) as Hcaption
      by (vm_compute; reflexivity).
    exact (proj1 (proj2 (proj2 (proj2 (proj2 (proj2 (proj2 (js_entry_escaping b_asset)))))))
             _ Hcaption).
  - exact (proj2 (proj2 (proj2 (proj2 (proj2 (proj2 (proj2 (proj2 (proj2
             (js_entry_escaping b_asset)))))))))
             (lit "Rock 'n' roll")).
Defined.

Lemma pipeline_idempotent_witness :
  let first := run_pipeline (U := AsciiCase.ascii_case) (R := PlainTemplate.plain_re)
                 GENERIC_PREFIXES tagged_album page_with_markers in
  let second := run_pipeline (U := AsciiCase.ascii_case) (R := PlainTemplate.plain_re)
                  (rev GENERIC_PREFIXES) tagged_album (snd (snd first)) in
  fst second = fst first
  /\ fst first = rendered_block (U := AsciiCase.ascii_case) GENERIC_PREFIXES tagged_album.
Proof.
  apply (pipeline_idempotent (U := AsciiCase.ascii_case) (R := PlainTemplate.plain_re)
           GENERIC_PREFIXES (rev GENERIC_PREFIXES) tagged_album page_with_markers).
  - apply Permutation_refl.
  - apply Permutation_rev.
Defined.

(** On the sample page the first run splices the block in and the second
    run finds the page as the first one left it. *)
Example two_runs_on_sample_page :
  let first := main (U := AsciiCase.ascii_case) (R := PlainTemplate.plain_re)
                 GENERIC_PREFIXES false tagged_album page_with_markers in
  let second := main (U := AsciiCase.ascii_case) (R := PlainTemplate.plain_re)
                  (rev GENERIC_PREFIXES) false tagged_album (snd first) in
  fst first = Exit 0 /\ second = first
  /\ Some (html_file (snd first))
     = (fun block => lit "<script>" ++ block ++ lit "</script>")
         <$> rendered_block (U := AsciiCase.ascii_case) GENERIC_PREFIXES tagged_album.
Proof. vm_compute. done. Qed.

(** C1 fails on an album of two videos and no photo: the title of the
    album is on both records. *)
Example album_title_on_every_video :
  map a_albumTitle (fst (scan_portfolio (U := AsciiCase.ascii_case) two_videos_album))
    = [Some (lit "Clips"); Some (lit "Clips")].
Proof. vm_compute. reflexivity. Qed.

(* ================================================================== *)
(** * Further properties of the pipeline *)

(** ** What the scan indexes *)

Section ScanCoverage.
Context {U : PyCase}.

Variable prefixes : list str.

Lemma classify_filter (d : Dir) (names : list str) :
  classify d names = (List.filter (plain_photo d) names, List.filter (video_file d) names).
Proof.
  induction names as [|f names IH]; [done|].
  cbn [classify List.filter]. rewrite IH. unfold plain_photo, video_file.
  destruct (reserved (lower f)); [done|].
  destruct (has_poster_suffix (lower f)); [done|].
  destruct (isfile d f); cbn [negb andb]; [|by rewrite andb_false_r].
  destruct (bool_decide (_ ∈ PHOTO_EXTS)); cbn [negb andb]; [done|].
  by destruct (bool_decide (_ ∈ VIDEO_EXTS)).
Qed.

Lemma first_photo_head (d : Dir) (names : list str) :
  first_photo d names = head (List.filter (plain_photo d) names).
Proof.
  induction names as [|f names IH]; [done|].
  rewrite first_photo_unfold. cbn [List.filter].
  by destruct (plain_photo d f).
Qed.

Lemma scan_album_keys (tags_data : gmap str (list str)) (album : str)
    (album_dir : AlbumDir) :
  map order_key (scan_album prefixes tags_data album album_dir)
    = map (fun f => (album, lit "photo", rel_path album f))
          (List.filter (plain_photo (files album_dir))
             (sorted (listdir (files album_dir))))
      ++ map (fun f => (album, lit "video", rel_path album f))
             (List.filter (video_file (files album_dir))
                (sorted (listdir (files album_dir)))).
Proof.
  unfold scan_album. rewrite classify_filter.
  rewrite map_app, !map_map. f_equal; apply map_enumerate; intros i x.
  - apply photo_entry_key.
  - apply video_entry_key.
Qed.

Lemma elem_of_filter_bool {A} (P : A -> bool) (l : list A) (x : A) :
  x ∈ List.filter P l <-> x ∈ l /\ P x = true.
Proof. rewrite !list_elem_of_In. apply filter_In. Qed.

Lemma map_flat_map {A B C} (f : B -> C) (g : A -> list B) (l : list A) :
  map f (flat_map g l) = flat_map (fun x => map f (g x)) l.
Proof.
  induction l as [|x l IH]; simpl; [done|]. by rewrite map_app, IH.
Qed.

(** X1.  The scan indexes exactly the media files of the albums: a
    photo record for every listed regular file with a photo extension,
    a video record for every one with a video extension, and nothing for
    reserved poster names, generated posters, directories and other
    files. *)
Theorem scan_indexes_media_files (s : Snapshot) (album type src : str) :
  (album, type, src) ∈ map order_key (fst (scan_portfolio_in prefixes s))
  <-> album ∈ snd (scan_portfolio_in prefixes s)
      /\ exists fname,
           fname ∈ listdir (files (album_dir_of s album))
           /\ src = rel_path album fname
           /\ ((type = lit "photo"
                /\ plain_photo (files (album_dir_of s album)) fname = true)
               \/ (type = lit "video"
                   /\ video_file (files (album_dir_of s album)) fname = true)).
Proof.
  unfold scan_portfolio_in. cbn [fst snd]. rewrite map_flat_map, elem_of_flat_map.
  split.
  - intros (album' & Halbum & Hkey). rewrite scan_album_keys in Hkey.
    apply elem_of_app in Hkey as [Hkey|Hkey];
      apply elem_of_map in Hkey as (fname & [= -> -> ->] & Hf);
      apply elem_of_filter_bool in Hf as [Hf Hok];
      apply (proj1 (elem_of_sorted _ _)) in Hf;
      (split; [done|]); exists fname; (split; [done|]); (split; [done|]);
      [left|right]; done.
  - intros (Halbum & fname & Hf & -> & Hkind). exists album. split; [done|].
    rewrite scan_album_keys. apply elem_of_app.
    destruct Hkind as [[-> Hok]|[-> Hok]]; [left|right];
      apply elem_of_map; exists fname; (split; [done|]);
      apply elem_of_filter_bool; (split; [|done]); by apply elem_of_sorted.
Qed.

(** X2.  The albums of the scan are the names of the directories of
    [SCRIPT_DIR] that are neither in the ignore set nor hidden, and no
    other entry: a plain file, an ignored or a hidden directory never
    becomes an album. *)
Theorem albums_are_visible_directories (s : Snapshot) (album : str) :
  album ∈ snd (scan_portfolio_in prefixes s)
  <-> exists e, e ∈ root s /\ rname e = album /\ visible_directory e.
Proof.
  unfold scan_portfolio_in. cbn [snd].
  rewrite elem_of_sorted, elem_of_map. unfold visible_directory.
  split.
  - intros (e & -> & He). apply elem_of_filter_bool in He as [He Hok].
    unfold is_album in Hok. apply andb_true_iff in Hok as [Hok Hdot].
    apply andb_true_iff in Hok as [Hdir Hign].
    exists e. split; [done|]. split; [done|].
    apply bool_decide_eq_true in Hdir. apply negb_true_iff in Hign, Hdot.
    apply bool_decide_eq_false in Hign. done.
  - intros (e & He & <- & Hdir & Hign & Hdot). exists e. split; [done|].
    apply elem_of_filter_bool. split; [done|]. unfold is_album.
    rewrite Hdot. rewrite (bool_decide_true _ Hdir), (bool_decide_false _ Hign). done.
Qed.

End ScanCoverage.

(** ** Paths identify assets *)

Lemma rel_path_inj (a a' f f' : str) :
  ch "/" ∉ a -> ch "/" ∉ a' -> rel_path a f = rel_path a' f' -> a = a' /\ f = f'.
Proof.
  unfold rel_path. change (lit "/") with [ch "/"].
  revert a'. induction a as [|c a IH]; intros [|c' a'] Ha Ha'; simpl.
  - by intros [= ->].
  - intros [= <- _]. destruct Ha'. by left.
  - intros [= -> _]. destruct Ha. by left.
  - intros [= -> Heq]. destruct (IH a') as [-> ->]; try done.
    + intros H. apply Ha. by right.
    + intros H. apply Ha'. by right.
Qed.

Lemma NoDup_map_filter {A B} (f : A -> B) (P : A -> bool) (l : list A) :
  NoDup (map f l) -> NoDup (map f (List.filter P l)).
Proof.
  induction l as [|x l IH]; simpl; [done|].
  intros [Hx Hl]%NoDup_cons. destruct (P x); simpl; [|by apply IH].
  apply NoDup_cons. split; [|by apply IH].
  intros (y & Hy & Hin)%elem_of_map. apply Hx, elem_of_map.
  exists y. split; [done|]. by apply elem_of_filter_bool in Hin as [? _].
Qed.

Lemma NoDup_filter_bool {A} (P : A -> bool) (l : list A) :
  NoDup l -> NoDup (List.filter P l).
Proof.
  intros H. rewrite <- (map_id (List.filter P l)).
  apply NoDup_map_filter. by rewrite map_id.
Qed.

Section ScanIdentity.
Context {U : PyCase}.

Variable prefixes : list str.

Lemma photo_not_video (d : Dir) (f : str) :
  plain_photo d f = true -> video_file d f = false.
Proof.
  unfold plain_photo, video_file. intros H.
  repeat (apply andb_true_iff in H as [H ?]).
  destruct (bool_decide (_ ∈ PHOTO_EXTS)); [|done].
  cbn [negb]. by rewrite andb_false_r.
Qed.

Lemma scan_album_srcs (tags_data : gmap str (list str)) (album : str)
    (album_dir : AlbumDir) :
  map a_src (scan_album prefixes tags_data album album_dir)
    = map (rel_path album)
          (List.filter (plain_photo (files album_dir)) (sorted (listdir (files album_dir)))
           ++ List.filter (video_file (files album_dir))
                (sorted (listdir (files album_dir)))).
Proof.
  change a_src with (fun a => snd (order_key a)).
  rewrite <- (map_map order_key snd), scan_album_keys.
  by rewrite !map_app, !map_map.
Qed.

Lemma album_dir_of_root (s : Snapshot) (album : str) :
  (exists e, e ∈ root s /\ rdir e = Some (album_dir_of s album))
  \/ files (album_dir_of s album) = [].
Proof.
  unfold album_dir_of.
  destruct (List.find _ (root s)) as [[n [d|]]|] eqn:Hfind; [|by right..].
  left. apply find_some in Hfind as [Hin _].
  eexists. split; [by apply list_elem_of_In|done].
Qed.

(** X3.  When the names in [SCRIPT_DIR] and in every album directory
    are distinct and no directory name holds a slash, as on a file
    system, the [src] paths of the scanned assets are pairwise distinct:
    a path stands for one asset. *)
Theorem scan_srcs_distinct (s : Snapshot) :
  NoDup (map rname (root s)) ->
  (forall e, e ∈ root s -> ch "/" ∉ rname e) ->
  (forall e d, e ∈ root s -> rdir e = Some d -> NoDup (listdir (files d))) ->
  NoDup (map a_src (fst (scan_portfolio_in prefixes s))).
Proof.
  intros Hnames Hslash Hfiles. unfold scan_portfolio_in. cbn [fst].
  rewrite map_flat_map.
  assert (NoDup (sorted (map rname (List.filter is_album (root s))))) as Halbums.
  { rewrite sorted_Permutation. by apply NoDup_map_filter. }
  assert (forall album, album ∈ sorted (map rname (List.filter is_album (root s))) ->
                        ch "/" ∉ album) as Hsl.
  { intros album Ha. apply (proj1 (elem_of_sorted _ _)) in Ha.
    apply elem_of_map in Ha as (e & -> & He).
    apply Hslash. by apply elem_of_filter_bool in He as [? _]. }
  induction Halbums as [|album albums Hnotin Halbums IH]; [constructor|].
  cbn [flat_map]. apply NoDup_app. split; [|split].
  - rewrite scan_album_srcs. apply NoDup_fmap_2_strong.
    + intros x y _ _ Heq. unfold rel_path in Heq. by do 2 apply app_inv_head in Heq.
    + assert (NoDup (sorted (listdir (files (album_dir_of s album))))) as Hl.
      { rewrite sorted_Permutation.
        destruct (album_dir_of_root s album) as [(e & He & Hd)| ->]; [|constructor].
        by eapply Hfiles. }
      apply NoDup_app. split; [by apply NoDup_filter_bool|]. split.
      * intros f [_ Hp]%elem_of_filter_bool [_ Hv]%elem_of_filter_bool.
        by rewrite (photo_not_video _ _ Hp) in Hv.
      * by apply NoDup_filter_bool.
  - intros p Hp (album' & Halbum' & Hp')%elem_of_flat_map.
    rewrite scan_album_srcs in Hp, Hp'.
    apply elem_of_map in Hp as (f & -> & _).
    apply elem_of_map in Hp' as (f' & Heq & _).
    apply rel_path_inj in Heq as [-> _].
    + done.
    + apply Hsl. by left.
    + apply Hsl. by right.
  - apply IH. intros a Ha. apply Hsl. by right.
Qed.

End ScanIdentity.

Lemma scan_srcs_distinct_witness :
  NoDup (map a_src (fst (scan_portfolio (U := AsciiCase.ascii_case) tagged_album))).
Proof.
  apply (scan_srcs_distinct (U := AsciiCase.ascii_case) GENERIC_PREFIXES tagged_album).
  - apply (bool_decide_unpack _). vm_compute. exact I.
  - intros e He. apply (bool_decide_unpack _).
    apply list_elem_of_singleton in He as ->. vm_compute. exact I.
  - intros e d He Hd. apply list_elem_of_singleton in He as ->.
    injection Hd as <-. apply (bool_decide_unpack _). vm_compute. exact I.
Defined.

(** ** The metadata merger *)

Section MetadataOverlay.
Context {U : PyCase}.

Variable prefixes : list str.

Lemma overlay_None {A} (new : option A) : overlay new None = new.
Proof. by destruct new. Qed.

Lemma attach_meta_fields (tags_data : gmap str (list str)) (album : str)
    (album_dir : AlbumDir) (fname : str) (entry : Asset) :
  a_caption entry = None -> a_credit entry = None -> a_featured entry = None ->
  a_order entry = None -> a_layout entry = None ->
  let a := attach_meta_and_tags tags_data album album_dir fname entry in
  let m := fst (load_album_meta album_dir) !! fname in
  a_caption a = meta_field m m_caption
  /\ a_credit a = meta_field m m_credit
  /\ a_featured a = meta_field m m_featured
  /\ a_order a = meta_field m m_order
  /\ a_layout a = meta_field m m_layout
  /\ a_duration a = a_duration entry
  /\ a_title a = a_title entry
  /\ a_date a = a_date entry.
Proof.
  intros H1 H2 H3 H4 H5. unfold attach_meta_and_tags.
  destruct (fst (load_album_meta album_dir) !! fname) as [m|];
    destruct (tags_data !! _); simpl; rewrite ?H1, ?H2, ?H3, ?H4, ?H5, ?overlay_None;
    done.
Qed.

(** X4.  Every asset of the scan carries the optional fields that the
    [meta.json] of its album has for its file, each as it is there, and
    none of the others; [duration] is never set; and with no entry for
    the file, or with [meta.json] absent or unreadable, the asset has no
    optional field at all. *)
Theorem scan_metadata_overlay (s : Snapshot) (a : Asset) :
  a ∈ fst (scan_portfolio_in prefixes s) ->
  exists album fname,
    album ∈ snd (scan_portfolio_in prefixes s)
    /\ a_src a = rel_path album fname
    /\ let m := fst (load_album_meta (album_dir_of s album)) !! fname in
       a_caption a = meta_field m m_caption
       /\ a_credit a = meta_field m m_credit
       /\ a_featured a = meta_field m m_featured
       /\ a_order a = meta_field m m_order
       /\ a_layout a = meta_field m m_layout
       /\ a_duration a = None
       /\ (meta_json (album_dir_of s album) = MetaAbsent
           \/ meta_json (album_dir_of s album) = MetaMalformed ->
           m = None /\ a_albumTitle a = None).
Proof.
  unfold scan_portfolio_in. cbn [fst snd].
  intros (album & Halbum & Ha)%elem_of_flat_map.
  exists album. unfold scan_album in Ha.
  destruct (classify _ _) as [photos videos].
  assert (forall fname entry,
            a = attach_meta_and_tags (load_tags s) album (album_dir_of s album) fname entry ->
            a_src entry = rel_path album fname ->
            a_caption entry = None -> a_credit entry = None ->
            a_featured entry = None -> a_order entry = None ->
            a_layout entry = None -> a_duration entry = None ->
            (snd (load_album_meta (album_dir_of s album)) = None ->
             a_albumTitle entry = None) ->
            exists fname, album ∈ sorted (map rname (List.filter is_album (root s)))
              /\ a_src a = rel_path album fname
              /\ let m := fst (load_album_meta (album_dir_of s album)) !! fname in
                 a_caption a = meta_field m m_caption
                 /\ a_credit a = meta_field m m_credit
                 /\ a_featured a = meta_field m m_featured
                 /\ a_order a = meta_field m m_order
                 /\ a_layout a = meta_field m m_layout
                 /\ a_duration a = None
                 /\ (meta_json (album_dir_of s album) = MetaAbsent
                     \/ meta_json (album_dir_of s album) = MetaMalformed ->
                     m = None /\ a_albumTitle a = None)) as Hbuild.
  { intros fname entry -> Hsrc H1 H2 H3 H4 H5 H6 H7. exists fname.
    split; [done|]. split; [by rewrite attach_src|].
    destruct (attach_meta_fields (load_tags s) album (album_dir_of s album) fname entry
                H1 H2 H3 H4 H5) as (? & ? & ? & ? & ? & Hd & _).
    do 5 (split; [done|]). split; [by rewrite Hd|].
    intros Hmeta. rewrite attach_albumTitle.
    unfold load_album_meta in *.
    destruct Hmeta as [Hmeta|Hmeta]; rewrite Hmeta in *; (split; [done|]); by apply H7. }
  apply elem_of_app in Ha as [Ha|Ha];
    apply elem_of_map in Ha as ([i fname] & Ha & _).
  - unfold photo_entry in Ha. eapply Hbuild; [exact Ha|..];
      try (by destruct (truthy _ && _)).
    intros ->. done.
  - unfold video_entry in Ha. eapply Hbuild; [exact Ha|..];
      try (by destruct (truthy _ && bool_decide _)).
    intros ->. done.
Qed.

End MetadataOverlay.

(** ** More on the thumbnail resolver *)

Section ThumbChoice.
Context {U : PyCase}.

Lemma files_lower_absent (d : Dir) (k : str) :
  ~ present d k -> files_lower_of d !! k = None.
Proof.
  intros Hno. destruct (files_lower_of d !! k) as [f|] eqn:Hk; [|done].
  destruct Hno. exists f. by apply files_lower_Some.
Qed.

Lemma first_key_absent (d : Dir) (candidates : list str) :
  (forall c, c ∈ candidates -> ~ present d c) ->
  first_key candidates (files_lower_of d) = None.
Proof.
  induction candidates as [|c rest IH]; intros Hno; simpl; [done|].
  rewrite files_lower_absent by (apply Hno; by left).
  apply IH. intros c' Hc'. apply Hno. by right.
Qed.

Lemma named_regular_file (d : Dir) (target f : str) :
  named d target f -> f ∈ listdir d /\ isfile d f = true.
Proof. intros [Hf _]. by apply elem_of_filter_bool in Hf. Qed.

(** X5.  A thumbnail that [find_thumb_for_video] returns is the path of
    a regular file listed in the album directory: never a missing file,
    never a directory. *)
Theorem find_thumb_is_listed_file (d : Dir) (album video thumb : str) :
  find_thumb_for_video d album video = Some thumb ->
  exists f, thumb = rel_path album f /\ f ∈ listdir d /\ isfile d f = true.
Proof.
  unfold find_thumb_for_video.
  destruct (first_key (video_poster_candidates video) _) as [f|] eqn:H1.
  { intros [= <-]. exists f. split; [done|].
    apply first_key_Some in H1 as (c & _ & Hn). by eapply named_regular_file. }
  destruct (first_key POSTER_NAMES _) as [f|] eqn:H2.
  { intros [= <-]. exists f. split; [done|].
    apply first_key_Some in H2 as (c & _ & Hn). by eapply named_regular_file. }
  destruct (first_photo d _) as [f|] eqn:H3; [|done].
  intros [= <-]. exists f. split; [done|].
  apply first_photo_Some in H3 as (before & after & Hl & Hp & _).
  split.
  - apply (elem_of_sorted f). rewrite Hl. apply elem_of_app. right. by left.
  - unfold plain_photo in Hp. by apply andb_true_iff in Hp as [_ ?].
Qed.

(** X6.  The frame that [generate-video-thumbs.py] stores for a video,
    [{stem}_poster.jpg], is the thumbnail of that video whatever else
    the album holds, provided no other regular file has the same name up
    to case. *)
Theorem generated_poster_wins (d : Dir) (album video : str) :
  let poster_name := fst (splitext video) ++ POSTER_SUFFIX ++ lit ".jpg" in
  poster_name ∈ listdir d ->
  isfile d poster_name = true ->
  (forall g, g ∈ listdir d -> isfile d g = true ->
             lower g = lower poster_name -> g = poster_name) ->
  find_thumb_for_video d album video = Some (rel_path album poster_name).
Proof.
  intros poster_name Hin Hfile Huniq. unfold find_thumb_for_video.
  unfold video_poster_candidates. cbn [map first_key].
  fold poster_name.
  destruct (files_lower_of d !! lower poster_name) as [g|] eqn:Hg.
  - apply files_lower_Some in Hg as [Hg Hlow].
    apply elem_of_filter_bool in Hg as [Hg1 Hg2].
    by rewrite (Huniq g Hg1 Hg2 Hlow).
  - apply files_lower_None in Hg. destruct Hg. exists poster_name.
    split; [|done]. by apply elem_of_filter_bool.
Qed.

(** X7.  In an album without a poster of any kind, the thumbnail of
    every video is the first photo that the scan indexes for the album;
    with no photo either, there is none and the entry falls back on the
    video itself. *)
Theorem fallback_thumb_is_first_photo (d : Dir) (album video : str) :
  (forall c, c ∈ video_poster_candidates video -> ~ present d c) ->
  (forall c, c ∈ POSTER_NAMES -> ~ present d c) ->
  find_thumb_for_video d album video
    = rel_path album <$> head (fst (classify d (sorted (listdir d))))
  /\ forall prefixes tags_data meta videos i,
       a_thumb (video_entry prefixes tags_data album
                  {| files := d; meta_json := meta |}
                  (fst (classify d (sorted (listdir d)))) videos i video)
       = match fst (classify d (sorted (listdir d))) with
         | first :: _ => rel_path album first
         | [] => rel_path album video
         end.
Proof.
  intros Hown Hreserved.
  assert (find_thumb_for_video d album video
          = rel_path album <$> head (fst (classify d (sorted (listdir d))))) as Hfind.
  { unfold find_thumb_for_video.
    rewrite (first_key_absent _ _ Hown), (first_key_absent _ _ Hreserved).
    rewrite first_photo_head, classify_filter. cbn [fst].
    by destruct (List.filter _ _). }
  split; [done|].
  intros prefixes tags_data meta videos i.
  unfold video_entry. rewrite attach_thumb. cbn [files]. rewrite Hfind.
  destruct (fst (classify d (sorted (listdir d)))) as [|first rest]; cbn [head fmap option_fmap option_map].
  - by destruct (truthy _ && bool_decide _).
  - pose proof (rel_path_nonempty album first) as Hne.
    destruct (rel_path album first) as [|c t] eqn:Hp; [done|].
    by destruct (truthy _ && bool_decide _).
Qed.

End ThumbChoice.

(** ** The shape of a record *)

Lemma join_cons_nonempty (sep a : str) (l : list str) :
  l <> [] -> join sep (a :: l) = a ++ sep ++ join sep l.
Proof. by destruct l. Qed.

Lemma join_comma_lines (fields : list str) (f : str) :
  join nl (map (fun x => x ++ lit ",") fields ++ [f])
    = join (lit "," ++ nl) (fields ++ [f]).
Proof.
  induction fields as [|x fields IH]; [done|].
  cbn [map app].
  rewrite !join_cons_nonempty by (by destruct fields).
  rewrite IH. by rewrite <- !app_assoc.
Qed.

(** X8.  A record is its fields, the six core ones and then the optional
    ones that are set, each on a line of its own and joined by commas,
    between the two braces: no comma follows the last field, whichever
    it is. *)
Theorem js_entry_comma_separated (asset : Asset) :
  js_entry asset
    = lit "  {" ++ nl ++ join (lit "," ++ nl) (js_entry_fields asset) ++ nl ++ lit "  }".
Proof.
  unfold js_entry, js_entry_lines, js_entry_fields.
  destruct (js_entry_trailing asset) as [|t rest].
  - cbn [append_trailing]. unfold js_entry_core, quoted. cbn [app join].
    by rewrite <- !app_assoc.
  - rewrite append_trailing_cons.
    assert (exists init final, t :: rest = init ++ [final]) as (init & final & Hsplit).
    { destruct (rev (t :: rest)) as [|final init] eqn:Hrev.
      - apply (f_equal (@length _)) in Hrev. by rewrite length_rev in Hrev.
      - exists (rev init), final. apply rev_inj. rewrite Hrev, rev_app_distr. by rewrite rev_involutive. }
    rewrite Hsplit, map_app. cbn [map].
    rewrite List.removelast_last, List.last_last.
    set (six := [ quoted (lit "    type:  '") (a_type asset);
                  quoted (lit "    src:   '") (a_src asset);
                  quoted (lit "    thumb: '") (a_thumb asset);
                  quoted (lit "    title: '") (a_title asset);
                  quoted (lit "    album: '") (a_album asset);
                  quoted (lit "    date:  '") (a_date asset) ]).
    change (comma_last (js_entry_core asset))
      with (lit "  {" :: map (fun x => x ++ lit ",") six).
    rewrite <- !app_assoc.
    match goal with
    | |- join nl ?lines = _ =>
      replace lines
        with ([lit "  {"] ++ (map (fun x => x ++ lit ",") (six ++ init) ++ [final])
                ++ [lit "  }"])
        by (rewrite map_app, <- !app_assoc; reflexivity)
    end.
    rewrite (join_app nl [lit "  {"]); [|done|by destruct (map _ _)].
    rewrite (join_app nl (map _ _ ++ [final])); [|by destruct (map _ _)|done].
    rewrite join_comma_lines, !join_singleton.
    by rewrite <- !app_assoc.
Qed.

(** ** The featured flag *)

Lemma not_featured_line (key rest : str) :
  (5 <= length key)%nat ->
  firstn 5 key <> firstn 5 (lit "    featured: true") ->
  key ++ rest <> lit "    featured: true".
Proof.
  intros Hlen Hkey Heq. apply Hkey. rewrite <- Heq.
  rewrite firstn_app. replace (5 - length key)%nat with O by lia.
  by rewrite firstn_O, app_nil_r.
Qed.

(** X9.  The line [featured: true] is among the optional lines of a
    record exactly when the asset has [featured] set to true; a
    [featured] that is false is carried by the asset but serialized like
    no flag at all. *)
Theorem featured_rendered_when_true (asset : Asset) :
  (lit "    featured: true" ∈ js_entry_trailing asset <-> a_featured asset = Some true)
  /\ js_entry (set_featured (Some false) asset) = js_entry (set_featured None asset).
Proof.
  split; [|reflexivity]. split.
  - unfold js_entry_trailing, when_set, quoted. rewrite !elem_of_app.
    intros H.
    repeat match type of H with
           | _ \/ _ => destruct H as [H|H]
           end;
      repeat match type of H with
             | context [if ?b then _ else _] => destruct b
             | context [match ?x with Some _ => _ | None => _ end] => destruct x
             | context [match ?x with [] => _ | _ :: _ => _ end] => destruct x
             | context [match ?x with true => _ | false => _ end] => destruct x
             end;
      try (by apply elem_of_nil in H);
      try done;
      apply list_elem_of_singleton in H; symmetry in H;
      exfalso; revert H;
      (apply not_featured_line; [vm_compute; lia|vm_compute; discriminate]).
  - intros H. unfold js_entry_trailing. rewrite H, !elem_of_app.
    do 4 right. left. by apply list_elem_of_singleton.
Qed.

(** ** Splicing again *)

Lemma startswith_longer (a r r' p : str) :
  (length p <= length a)%nat -> startswith (a ++ r) p = startswith (a ++ r') p.
Proof.
  revert a. induction p as [|x p IH]; intros [|y a] Hlen; simpl in *; try done; try lia.
  f_equal. apply IH. lia.
Qed.

(** Where the first occurrence is does not depend on what follows it. *)
Lemma find_sub_extend (pat pre r0 r : str) :
  find_sub pat (pre ++ pat ++ r0) = Some (pre, r0) ->
  find_sub pat (pre ++ pat ++ r) = Some (pre, r).
Proof.
  induction pre as [|c pre IH].
  - intros _. cbn [app]. rewrite find_sub_unfold, startswith_app.
    by rewrite skipn_app_exact.
  - cbn [app]. rewrite !(find_sub_unfold pat (c :: _)).
    assert (startswith (c :: pre ++ pat ++ r) pat
            = startswith (c :: pre ++ pat ++ r0) pat) as ->.
    { replace (c :: pre ++ pat ++ r) with ((c :: pre ++ pat) ++ r)
        by (cbn [app]; by rewrite <- app_assoc).
      replace (c :: pre ++ pat ++ r0) with ((c :: pre ++ pat) ++ r0)
        by (cbn [app]; by rewrite <- app_assoc).
      apply startswith_longer. cbn [length]. rewrite length_app. lia. }
    destruct (startswith _ pat); [done|].
    destruct (find_sub pat (pre ++ pat ++ r0)) as [[pre' post']|] eqn:Hf; [|done].
    intros [= -> ->]. by rewrite IH.
Qed.

Lemma single_region_block (block : str) :
  single_region block ->
  exists mid, block = ASSETS_START ++ mid ++ ASSETS_END
              /\ find_sub ASSETS_END (mid ++ ASSETS_END ++ []) = Some (mid, []).
Proof.
  intros [mid Hs]. exists mid. pose proof (search_markers_Some _ _ _ _ Hs) as Hb.
  cbn [app] in Hb. rewrite app_nil_r in Hb. split; [done|].
  unfold search_markers in Hs.
  destruct (find_sub ASSETS_START block) as [[pre rest]|] eqn:H1; [|done].
  destruct (find_sub ASSETS_END rest) as [[mid' post]|] eqn:H2; [|done].
  injection Hs as -> -> ->.
  apply find_sub_Some in H1. cbn [app] in H1. rewrite Hb in H1.
  apply app_inv_head in H1. rewrite app_nil_r. by rewrite H1.
Qed.

Lemma search_markers_spliced (html pre m post block mid rest : str) :
  search_markers html = Some (pre, m, post) ->
  block = ASSETS_START ++ mid ++ ASSETS_END ->
  find_sub ASSETS_END (mid ++ ASSETS_END ++ []) = Some (mid, []) ->
  search_markers (pre ++ block ++ rest) = Some (pre, mid, rest).
Proof.
  intros Hs -> Hend. unfold search_markers in *.
  destruct (find_sub ASSETS_START html) as [[pre0 rest0]|] eqn:H1; [|done].
  destruct (find_sub ASSETS_END rest0) as [[m0 post0]|] eqn:H2; [|done].
  injection Hs as -> -> ->.
  pose proof (find_sub_Some _ _ _ _ H1) as Hhtml. rewrite Hhtml in H1.
  rewrite <- !app_assoc.
  rewrite (find_sub_extend _ _ _ (mid ++ ASSETS_END ++ rest) H1).
  by rewrite (find_sub_extend _ _ _ rest Hend).
Qed.

Lemma sub_markers_idempotent (block : str) (html : str) :
  single_region block ->
  sub_markers (length (sub_markers (length html) (fun _ => block) html))
    (fun _ => block) (sub_markers (length html) (fun _ => block) html)
  = sub_markers (length html) (fun _ => block) html.
Proof.
  intros (mid & Hblock & Hend)%single_region_block.
  induction html as [html IH] using (induction_ltof1 _ (@length _)). unfold ltof in IH.
  destruct (search_markers html) as [[[pre m] post]|] eqn:Hs.
  - pose proof (search_markers_shorter _ _ _ _ Hs) as Hlt.
    destruct (length html) as [|n] eqn:Hn; [lia|].
    cbn [sub_markers]. rewrite Hs. rewrite (sub_markers_steps n) by lia.
    set (tail := sub_markers (length post) (fun _ => block) post) in *.
    assert (0 < length block)%nat as Hpos.
    { rewrite Hblock, !length_app.
      assert (0 < length ASSETS_START)%nat by (vm_compute; lia). lia. }
    destruct (length (pre ++ block ++ tail)) as [|k] eqn:Hk.
    { rewrite !length_app in Hk. lia. }
    cbn [sub_markers].
    rewrite (search_markers_spliced _ _ _ _ _ _ tail Hs Hblock Hend).
    rewrite (sub_markers_steps k) by (rewrite !length_app in Hk; lia).
    subst tail. rewrite IH by lia. done.
  - destruct (length html) as [|n] eqn:Hn.
    + destruct html; [done|done].
    + cbn [sub_markers]. rewrite Hs, Hn. cbn [sub_markers]. by rewrite Hs.
Qed.

Lemma new_block_markers (assets : list Asset) :
  exists mid, new_block assets = ASSETS_START ++ mid ++ ASSETS_END.
Proof.
  exists (nl ++ lit "const ASSETS = [" ++ nl ++ join nl (body_lines assets) ++ nl
            ++ lit "];" ++ nl).
  unfold new_block. rewrite !join_cons2, !join_singleton.
  by rewrite <- !app_assoc.
Qed.

Section SpliceAgain.
Context {R : PyRe}.

Lemma update_html_leaves_markers (assets : list Asset) (albums : list str) (w w1 : World) :
  verbatim (new_block assets) ->
  update_html assets albums w = (Returned true, w1) ->
  has_markers (html_file w1).
Proof.
  intros Hverb Hrun.
  destruct (search_markers (html_file w)) as [[[pre m] post]|] eqn:Hs.
  - rewrite (update_html_match _ _ _ _ _ _ Hs), Hverb in Hrun.
    assert (html_file w1
            = pre ++ new_block assets
                ++ sub_markers (length post) (fun _ => new_block assets) post) as ->
      by (by injection Hrun as <-).
    destruct (new_block_markers assets) as [mid Hmid].
    exists pre, mid, (sub_markers (length post) (fun _ => new_block assets) post).
    rewrite Hmid at 1. by rewrite <- !app_assoc.
  - by rewrite (update_html_no_match _ _ _ Hs) in Hrun.
Qed.

(** X10.  When the block is spliced in as it is, a run that returned
    [True] leaves a page that holds both markers again, so the next run
    on that page returns [True] as well: it never fails on the page it
    wrote. *)
Theorem update_html_can_run_again (assets : list Asset) (albums : list str) (w w1 : World) :
  verbatim (new_block assets) ->
  update_html assets albums w = (Returned true, w1) ->
  has_markers (html_file w1)
  /\ fst (update_html assets albums w1) = Returned true.
Proof.
  intros Hverb Hrun.
  pose proof (update_html_leaves_markers _ _ _ _ Hverb Hrun) as Hm.
  split; [done|].
  destruct (search_markers (html_file w1)) as [[[pre m] post]|] eqn:Hs.
  - by rewrite (update_html_match _ _ _ _ _ _ Hs), Hverb.
  - by apply search_markers_None in Hs.
Qed.

(** X11.  When the block is spliced in as it is and holds the end marker
    only at its end, splicing is idempotent: a second run on the page
    the first run wrote returns [True] and leaves that page and the
    console exactly as they are. *)
Theorem update_html_idempotent (assets : list Asset) (albums : list str) (w w1 : World) :
  verbatim (new_block assets) ->
  single_region (new_block assets) ->
  update_html assets albums w = (Returned true, w1) ->
  update_html assets albums w1 = (Returned true, w1).
Proof.
  intros Hverb Hsingle Hrun.
  destruct (search_markers (html_file w)) as [[[pre m] post]|] eqn:Hs;
    [|by rewrite (update_html_no_match _ _ _ Hs) in Hrun].
  pose proof Hrun as Hrun0.
  unfold update_html in Hrun. rewrite Hs, Hverb in Hrun.
  injection Hrun as <-.
  pose proof (sub_markers_idempotent _ (html_file w) Hsingle) as Hidem.
  unfold update_html. cbn [html_file console].
  destruct (search_markers (sub_markers _ _ (html_file w))) as [[[pre' m'] post']|] eqn:Hs'.
  - rewrite Hverb. by rewrite Hidem.
  - exfalso. apply search_markers_None in Hs'. apply Hs'.
    by apply (update_html_leaves_markers assets albums w _ Hverb Hrun0).
Qed.

End SpliceAgain.

Lemma update_html_can_run_again_witness :
  has_markers (html_file spliced_page)
  /\ fst (update_html (R := PlainTemplate.plain_re) tagged_assets [] spliced_page)
     = Returned true.
Proof.
  apply (update_html_can_run_again (R := PlainTemplate.plain_re)
           tagged_assets [] page_with_markers spliced_page).
  - vm_compute. reflexivity.
  - vm_compute. reflexivity.
Defined.

Lemma update_html_idempotent_witness :
  update_html (R := PlainTemplate.plain_re) tagged_assets [] spliced_page
    = (Returned true, spliced_page).
Proof.
  apply (update_html_idempotent (R := PlainTemplate.plain_re)
           tagged_assets [] page_with_markers spliced_page).
  - vm_compute. reflexivity.
  - eexists. vm_compute. reflexivity.
  - vm_compute. reflexivity.
Defined.

(** Without the condition on the block the second splice changes the
    page: a caption that quotes the end marker closes the region early
    and the rest of the old block stays behind. *)
Example splice_twice_with_marker_in_caption :
  let first := update_html (R := PlainTemplate.plain_re) [marker_in_caption] []
                 page_with_markers in
  let second := update_html (R := PlainTemplate.plain_re) [marker_in_caption] []
                  (snd first) in
  fst first = Returned true /\ fst second = Returned true
  /\ html_file (snd second) <> html_file (snd first).
Proof.
  split; [vm_compute; reflexivity|]. split; [vm_compute; reflexivity|].
  intros H. apply (f_equal (@length _)) in H. vm_compute in H. discriminate H.
Qed.

Lemma scan_metadata_overlay_witness :
  exists album fname,
    album ∈ snd (scan_portfolio (U := AsciiCase.ascii_case) captioned_album)
    /\ a_src b_asset = rel_path album fname
    /\ let m := fst (load_album_meta (album_dir_of captioned_album album)) !! fname in
       a_caption b_asset = meta_field m m_caption
       /\ a_credit b_asset = meta_field m m_credit
       /\ a_featured b_asset = meta_field m m_featured
       /\ a_order b_asset = meta_field m m_order
       /\ a_layout b_asset = meta_field m m_layout
       /\ a_duration b_asset = None
       /\ (meta_json (album_dir_of captioned_album album) = MetaAbsent
           \/ meta_json (album_dir_of captioned_album album) = MetaMalformed ->
           m = None /\ a_albumTitle b_asset = None).
Proof.
  apply (scan_metadata_overlay (U := AsciiCase.ascii_case) GENERIC_PREFIXES
           captioned_album b_asset).
  vm_compute. apply list_elem_of_further, list_elem_of_here.
Defined.

Example captioned_asset_fields :
  a_caption b_asset = Some (lit "Rock 'n' roll")
  /\ a_featured b_asset = Some true
  /\ a_order b_asset = Some (Int 3)
  /\ a_credit b_asset = None.
Proof. vm_compute. done. Qed.

Lemma find_thumb_is_listed_file_witness :
  exists f, lit "70s/clip_poster.png" = rel_path (lit "70s") f
            /\ f ∈ listdir poster_dir /\ isfile poster_dir f = true.
Proof.
  apply (find_thumb_is_listed_file (U := AsciiCase.ascii_case) poster_dir (lit "70s")
           (lit "clip.mp4")).
  vm_compute. reflexivity.
Defined.

Lemma generated_poster_wins_witness :
  find_thumb_for_video (U := AsciiCase.ascii_case) frame_dir (lit "70s") (lit "clip.mp4")
    = Some (rel_path (lit "70s")
              (fst (splitext (lit "clip.mp4")) ++ POSTER_SUFFIX ++ lit ".jpg")).
Proof.
  apply (generated_poster_wins (U := AsciiCase.ascii_case) frame_dir (lit "70s")
           (lit "clip.mp4")).
  - apply (bool_decide_unpack _). vm_compute. exact I.
  - vm_compute. reflexivity.
  - intros g Hg _ Hlow. unfold frame_dir, listdir in Hg. cbn [map fname sample_file] in Hg.
    repeat (apply elem_of_cons in Hg as [->|Hg]);
      try (vm_compute; reflexivity);
      try (vm_compute in Hlow; discriminate Hlow).
    by apply elem_of_nil in Hg.
Defined.

Lemma fallback_thumb_is_first_photo_witness :
  find_thumb_for_video (U := AsciiCase.ascii_case) photo_dir (lit "70s") (lit "clip.mp4")
    = rel_path (lit "70s")
        <$> head (fst (classify (U := AsciiCase.ascii_case) photo_dir
                         (sorted (listdir photo_dir)))).
Proof.
  apply (fallback_thumb_is_first_photo (U := AsciiCase.ascii_case) photo_dir (lit "70s")
           (lit "clip.mp4")).
  - intros c Hc. apply files_lower_None.
    unfold video_poster_candidates in Hc. cbn [map] in Hc.
    repeat (apply elem_of_cons in Hc as [->|Hc]); try (vm_compute; reflexivity).
    by apply elem_of_nil in Hc.
  - intros c Hc. apply files_lower_None. unfold POSTER_NAMES in Hc.
    repeat (apply elem_of_cons in Hc as [->|Hc]); try (vm_compute; reflexivity).
    by apply elem_of_nil in Hc.
Defined.

(** ** The main program *)

Section MainFacts.
Context {U : PyCase} {R : PyRe}.

Lemma update_html_changes (assets : list Asset) (albums : list str) (w w' : World)
    (o : outcome) :
  update_html assets albums w = (o, w') ->
  html_file w' <> html_file w ->
  o = Returned true /\ has_markers (html_file w).
Proof.
  intros Hrun Hchanged.
  destruct (search_markers (html_file w)) as [[[pre mid] post]|] eqn:Hs.
  - rewrite (update_html_match _ _ _ _ _ _ Hs) in Hrun.
    destruct (expand_template (new_block assets)) as [repl|].
    + injection Hrun as <- <-. split; [done|].
      exists pre, mid, post. by apply search_markers_Some.
    + injection Hrun as <- <-. done.
  - rewrite (update_html_no_match _ _ _ Hs) in Hrun.
    injection Hrun as <- <-. done.
Qed.

(** X12.  The page is written only by a run that is not a dry run and
    found media and both markers in the page.  A dry run leaves the page
    as it was, and so does a scan without media, which ends the run with
    status 1; and no run that ends with status 1 has touched the
    page. *)
Theorem main_touches_page_only_to_splice (prefixes : list str) (dry_run : bool)
    (s : Snapshot) (w w' : World) (e : ending) :
  main prefixes dry_run s w = (e, w') ->
  (html_file w' <> html_file w ->
     dry_run = false
     /\ fst (scan_portfolio_in prefixes s) <> []
     /\ has_markers (html_file w))
  /\ (fst (scan_portfolio_in prefixes s) = [] -> e = Exit 1 /\ w' = w)
  /\ (dry_run = true -> w' = w)
  /\ (e = Exit 1 -> html_file w' = html_file w).
Proof.
  unfold main. destruct (scan_portfolio_in prefixes s) as [assets albums].
  cbn [fst]. case_bool_decide as Hassets.
  { intros [= <- <-]. repeat split; done. }
  destruct dry_run.
  { intros [= <- <-]. repeat split; done. }
  destruct (update_html assets albums w) as [o w1] eqn:Hrun.
  intros Hmain.
  assert (w1 = w') as -> by (by destruct o as [[|]|]; injection Hmain as _ ->).
  split; [|split; [done|split; [done|]]].
  - intros Hchanged.
    by destruct (update_html_changes _ _ _ _ _ Hrun Hchanged) as [_ Hm].
  - intros ->.
    destruct (decide (html_file w' = html_file w)) as [|Hchanged]; [done|].
    destruct (update_html_changes _ _ _ _ _ Hrun Hchanged) as [-> _].
    by injection Hmain.
Qed.

End MainFacts.

Lemma main_touches_page_only_to_splice_witness :
  false = false
  /\ fst (scan_portfolio_in (U := AsciiCase.ascii_case) GENERIC_PREFIXES tagged_album) <> []
  /\ has_markers (html_file page_with_markers).
Proof.
  eapply (proj1 (main_touches_page_only_to_splice (U := AsciiCase.ascii_case)
                   (R := PlainTemplate.plain_re) GENERIC_PREFIXES false tagged_album
                   page_with_markers _ _ (surjective_pairing _))).
  intros H. apply (f_equal (@length _)) in H. vm_compute in H. discriminate H.
Defined.

(** ** The cleaned stem *)

Lemma collapse_runs_elem (cls : char -> bool) (in_run : bool) (s : str) (c : char) :
  c ∈ collapse_runs cls in_run s -> c = ch " " \/ (c ∈ s /\ cls c = false).
Proof.
  revert in_run. induction s as [|x s IH]; intros in_run; simpl.
  - by intros ?%elem_of_nil.
  - destruct (cls x) eqn:Hx.
    + destruct in_run.
      * intros [?|[? ?]]%IH; [by left|right]. split; [by right|done].
      * intros [->|[?|[? ?]]%IH]%elem_of_cons; [by left|by left|right].
        split; [by right|done].
    + intros [->|[?|[? ?]]%IH]%elem_of_cons.
      * right. split; [by left|done].
      * by left.
      * right. split; [by right|done].
Qed.

Lemma collapse_runs_snoc (cls : char -> bool) (in_run : bool) (s : str) (c : char) :
  cls c = false ->
  collapse_runs cls in_run (s ++ [c]) = collapse_runs cls in_run s ++ [c].
Proof.
  intros Hc. revert in_run. induction s as [|x s IH]; intros in_run; simpl.
  - by rewrite Hc.
  - destruct (cls x); [destruct in_run|]; by rewrite IH.
Qed.

Lemma collapse_runs_spaced (in_run : bool) (s : str) :
  spaced_once in_run (collapse_runs is_space in_run s) = true.
Proof.
  revert in_run. induction s as [|x s IH]; intros in_run; simpl; [done|].
  destruct (is_space x) eqn:Hx.
  - destruct in_run; [apply IH|].
    simpl. replace (is_space (ch " ")) with true by reflexivity.
    simpl. apply IH.
  - simpl. rewrite Hx. apply IH.
Qed.

Lemma spaced_once_no_double (previous_space : bool) (before after : str) :
  spaced_once previous_space (before ++ ch " " :: ch " " :: after) = false.
Proof.
  revert previous_space. induction before as [|x before IH]; intros p; simpl.
  - replace (is_space (ch " ")) with true by reflexivity.
    simpl. by rewrite andb_false_r.
  - destruct (is_space x); [|apply IH]. rewrite IH. by rewrite andb_false_r.
Qed.

Lemma lstrip_elem (s : str) (c : char) : c ∈ lstrip s -> c ∈ s.
Proof.
  induction s as [|x s IH]; simpl; [done|].
  destruct (is_space x); [|done]. intros ?%IH. by right.
Qed.

Lemma lstrip_head (s : str) (c : char) (rest : str) :
  lstrip s = c :: rest -> is_space c = false.
Proof.
  induction s as [|x s IH]; simpl; [done|].
  destruct (is_space x) eqn:Hx; [done|]. by intros [= <- _].
Qed.

Lemma lstrip_snoc (s : str) (c : char) :
  is_space c = false -> exists s', lstrip (s ++ [c]) = s' ++ [c].
Proof.
  intros Hc. induction s as [|x s [s' IH]]; simpl.
  - rewrite Hc. by exists [].
  - destruct (is_space x); [by exists s'|]. by exists (x :: s).
Qed.

Lemma elem_of_rev {A} (l : list A) (x : A) : x ∈ rev l <-> x ∈ l.
Proof. rewrite !list_elem_of_In. symmetry. apply in_rev. Qed.

Lemma strip_elem (s : str) (c : char) : c ∈ strip s -> c ∈ s.
Proof.
  unfold strip. intros H.
  apply (proj1 (elem_of_rev _ _)), lstrip_elem in H.
  apply (proj1 (elem_of_rev _ _)) in H. by apply lstrip_elem.
Qed.

Lemma strip_last (s : str) (c : char) (init : str) :
  strip s = init ++ [c] -> is_space c = false.
Proof.
  unfold strip. intros H. apply (f_equal (@rev _)) in H.
  rewrite rev_involutive, rev_app_distr in H. by apply lstrip_head in H.
Qed.

Lemma strip_head (s : str) (c : char) (rest : str) :
  strip s = c :: rest -> is_space c = false.
Proof.
  unfold strip. destruct (lstrip s) as [|x t] eqn:Ht; [done|].
  pose proof (lstrip_head _ _ _ Ht) as Hx.
  cbn [rev]. destruct (lstrip_snoc (rev t) x Hx) as [s' ->].
  rewrite rev_app_distr. by intros [= <- _].
Qed.

(** X13.  Whatever the file is called, its cleaned stem is a string of
    words: it holds no hyphen and no underscore, its only white space is
    the space character, never two in a row, and it neither starts nor
    ends with one. *)
Theorem clean_stem_words_only `{PyCase} (filename : str) :
  words_only (clean_stem filename).
Proof.
  unfold clean_stem.
  set (stripped := strip (collapse_runs is_sep false _)).
  assert (forall c, c ∈ stripped -> is_sep c = false) as Hsep.
  { intros c Hc%strip_elem. by apply collapse_runs_elem in Hc as [->|[_ ?]]. }
  repeat split.
  - intros c [->|[Hc _]]%collapse_runs_elem; [done|]. by apply Hsep.
  - intros c [->|[_ Hc]]%collapse_runs_elem; [done|]. by rewrite Hc.
  - intros before after Heq.
    pose proof (collapse_runs_spaced false stripped) as Hok.
    by rewrite Heq, spaced_once_no_double in Hok.
  - intros c rest. destruct stripped as [|x t] eqn:Hs; [done|].
    pose proof (strip_head _ _ _ Hs) as Hx. simpl. rewrite Hx. by intros [= <- _].
  - intros c init.
    destruct (rev stripped) as [|x t] eqn:Hrev.
    { apply (f_equal (@rev _)) in Hrev. rewrite rev_involutive in Hrev.
      rewrite Hrev. by destruct init. }
    apply (f_equal (@rev _)) in Hrev. rewrite rev_involutive in Hrev. cbn [rev] in Hrev.
    pose proof (strip_last _ _ _ Hrev) as Hx.
    rewrite Hrev, (collapse_runs_snoc _ _ _ _ Hx).
    by intros [_ <-]%app_inj_tail.
Qed.

(* ================================================================== *)
(** * rename-with-ai.py *)

(** ** [sanitize] *)

Lemma replace_runs_elem (cls : char -> bool) (repl : char) (in_run : bool) (s : str)
    (c : char) :
  c ∈ replace_runs cls repl in_run s -> c = repl \/ (c ∈ s /\ cls c = false).
Proof.
  revert in_run. induction s as [|x s IH]; intros in_run; simpl.
  - by intros ?%elem_of_nil.
  - destruct (cls x) eqn:Hx.
    + destruct in_run.
      * intros [?|[? ?]]%IH; [by left|right]. split; [by right|done].
      * intros [->|[?|[? ?]]%IH]%elem_of_cons; [by left|by left|right].
        split; [by right|done].
    + intros [->|[?|[? ?]]%IH]%elem_of_cons.
      * right. split; [by left|done].
      * by left.
      * right. split; [by right|done].
Qed.

Lemma replace_runs_of_one (cls : char -> bool) (repl : char) (in_run : bool) (s : str) :
  cls repl = true ->
  runs_of_one cls in_run (replace_runs cls repl in_run s) = true.
Proof.
  intros Hrepl. revert in_run. induction s as [|x s IH]; intros in_run; simpl; [done|].
  destruct (cls x) eqn:Hx.
  - destruct in_run; [apply IH|]. simpl. rewrite Hrepl. simpl. apply IH.
  - simpl. rewrite Hx. apply IH.
Qed.

Lemma runs_of_one_no_double (cls : char -> bool) (previous : bool)
    (before after : str) (x y : char) :
  cls x = true -> cls y = true ->
  runs_of_one cls previous (before ++ x :: y :: after) = false.
Proof.
  intros Hx Hy. revert previous. induction before as [|b before IH]; intros p; simpl.
  - rewrite Hx, Hy. simpl. by rewrite andb_false_r.
  - destruct (cls b); [|apply IH]. rewrite IH. by rewrite andb_false_r.
Qed.

Lemma lstrip_chars_split (cls : char -> bool) (s : str) :
  exists dropped, s = dropped ++ lstrip_chars cls s.
Proof.
  induction s as [|x s [dropped IH]]; simpl; [by exists []|].
  destruct (cls x); [|by exists []]. exists (x :: dropped). simpl. by f_equal.
Qed.

Lemma lstrip_chars_head (cls : char -> bool) (s : str) (c : char) (rest : str) :
  lstrip_chars cls s = c :: rest -> cls c = false.
Proof.
  induction s as [|x s IH]; simpl; [done|].
  destruct (cls x) eqn:Hx; [done|]. by intros [= <- _].
Qed.

Lemma lstrip_chars_snoc (cls : char -> bool) (s : str) (c : char) :
  cls c = false -> exists s', lstrip_chars cls (s ++ [c]) = s' ++ [c].
Proof.
  intros Hc. induction s as [|x s [s' IH]]; simpl.
  - rewrite Hc. by exists [].
  - destruct (cls x); [by exists s'|]. by exists (x :: s).
Qed.

Lemma strip_chars_split (cls : char -> bool) (s : str) :
  exists left right, s = left ++ strip_chars cls s ++ right.
Proof.
  unfold strip_chars.
  destruct (lstrip_chars_split cls s) as [left Hl].
  destruct (lstrip_chars_split cls (rev (lstrip_chars cls s))) as [right Hr].
  exists left, (rev right). rewrite <- rev_app_distr, <- Hr, rev_involutive. done.
Qed.

Lemma strip_chars_last (cls : char -> bool) (s : str) (c : char) (init : str) :
  strip_chars cls s = init ++ [c] -> cls c = false.
Proof.
  unfold strip_chars. intros H. apply (f_equal (@rev _)) in H.
  rewrite rev_involutive, rev_app_distr in H. by apply lstrip_chars_head in H.
Qed.

Lemma strip_chars_head (cls : char -> bool) (s : str) (c : char) (rest : str) :
  strip_chars cls s = c :: rest -> cls c = false.
Proof.
  unfold strip_chars. destruct (lstrip_chars cls s) as [|x t] eqn:Ht; [done|].
  pose proof (lstrip_chars_head _ _ _ _ Ht) as Hx.
  cbn [rev]. destruct (lstrip_chars_snoc cls (rev t) x Hx) as [s' ->].
  rewrite rev_app_distr. by intros [= <- _].
Qed.

Lemma unnamed_hyphenated : hyphenated_name (lit "unnamed").
Proof.
  repeat split.
  - done.
  - apply Forall_forall, (bool_decide_unpack _). vm_compute. exact I.
  - intros rest H. vm_compute in H. discriminate H.
  - intros init H. apply (f_equal (@rev _)) in H. rewrite rev_app_distr in H.
    vm_compute in H. discriminate H.
  - intros before after H.
    assert (runs_of_one is_dash false (lit "unnamed") = true) as Hok by reflexivity.
    by rewrite H, runs_of_one_no_double in Hok.
Qed.

(** X15.  Whatever the model suggests, [sanitize] returns a usable file
    stem: it is not empty, it is made of lower-case letters, digits and
    hyphens only, and hyphens come one at a time and never first or
    last. *)
Theorem sanitize_hyphenated `{PyCase} (name : str) : hyphenated_name (sanitize name).
Proof.
  unfold sanitize.
  set (mapped := map _ (lower (strip name))).
  set (squeezed := replace_runs is_dash (ch "-") false mapped).
  case_bool_decide as Hempty; [apply unnamed_hyphenated|].
  assert (forall c, c ∈ mapped -> is_name_char c = true) as Hmapped.
  { intros c (x & -> & _)%elem_of_map. by destruct (is_name_char x) eqn:Hx. }
  destruct (strip_chars_split is_dash squeezed) as (left & right & Hsplit).
  repeat split.
  - done.
  - intros c Hc.
    assert (c ∈ squeezed) as Hsq.
    { rewrite Hsplit, !elem_of_app. right. by left. }
    apply replace_runs_elem in Hsq as [->|[Hin _]]; [done|by apply Hmapped].
  - intros rest Heq. by apply strip_chars_head in Heq.
  - intros init Heq. by apply strip_chars_last in Heq.
  - intros before after Heq.
    pose proof (replace_runs_of_one is_dash (ch "-") false mapped eq_refl) as Hok.
    fold squeezed in Hok. rewrite Hsplit, Heq in Hok.
    rewrite <- !app_assoc, (app_assoc left before) in Hok.
    cbn [app] in Hok. by rewrite runs_of_one_no_double in Hok.
Qed.

(** ** [unique_name] *)

Lemma bytes_of_inj (s t : string) : bytes_of s = bytes_of t -> s = t.
Proof.
  revert t. induction s as [|a s IH]; intros [|b t]; simpl; try done.
  intros [= Hab Hst]. f_equal; [|by apply IH].
  rewrite <- (ascii_N_embedding a), <- (ascii_N_embedding b). by rewrite Hab.
Qed.

Lemma to_int_nonnil (z : Z) :
  Z.to_int z <> Decimal.Pos Decimal.Nil /\ Z.to_int z <> Decimal.Neg Decimal.Nil.
Proof.
  destruct z; simpl; split; try discriminate.
  - intros [= H]. by apply Unsigned.to_uint_nonnil in H.
  - intros [= H]. by apply Unsigned.to_uint_nonnil in H.
Qed.

(** Different numbers print differently. *)
Lemma py_str_inj (z z' : Z) : py_str z = py_str z' -> z = z'.
Proof.
  unfold py_str. intros H%bytes_of_inj.
  apply DecimalZ.to_int_inj.
  destruct (to_int_nonnil z), (to_int_nonnil z').
  apply (f_equal NilZero.int_of_string) in H.
  rewrite !NilZero.isi in H by done. by injection H.
Qed.

Lemma numbered_name_inj (stem ext : str) (i j : Z) :
  numbered_name stem ext i = numbered_name stem ext j -> i = j.
Proof.
  unfold numbered_name. intros H.
  do 2 apply app_inv_head in H. apply app_inv_tail in H. by apply py_str_inj.
Qed.

Section UniqueNameFacts.
Variable path_exists : str -> bool.

Lemma unique_name_loop_spec (rounds : nat) (stem ext : str) (i : Z) :
  match unique_name_loop path_exists rounds stem ext i with
  | Some c =>
    exists k, (i <= k < i + Z.of_nat rounds)%Z
              /\ c = numbered_name stem ext k
              /\ path_exists c = false
              /\ forall j, (i <= j < k)%Z -> path_exists (numbered_name stem ext j) = true
  | None =>
    forall j, (i <= j < i + Z.of_nat rounds)%Z ->
              path_exists (numbered_name stem ext j) = true
  end.
Proof.
  revert i. induction rounds as [|rounds IH]; intros i; simpl.
  - intros j Hj. lia.
  - destruct (path_exists (numbered_name stem ext i)) eqn:Hi; simpl.
    + specialize (IH (i + 1)%Z).
      destruct (unique_name_loop path_exists rounds stem ext (i + 1)) as [c|].
      * destruct IH as (k & Hk & -> & Hfree & Hbelow).
        exists k. split; [lia|]. split; [done|]. split; [done|].
        intros j Hj. destruct (decide (j = i)) as [->|]; [done|]. apply Hbelow. lia.
      * intros j Hj. destruct (decide (j = i)) as [->|]; [done|]. apply IH. lia.
    + exists i. split; [lia|]. split; [done|]. split; [done|]. intros j Hj. lia.
Qed.

(** The loop ends: the names it tries are all different, so they cannot
    all be among the names that exist. *)
Lemma unique_name_loop_ends (known : list str) (rounds : nat) (stem ext : str) (i : Z) :
  (forall c, path_exists c = true -> c ∈ known) ->
  (length known < rounds)%nat ->
  unique_name_loop path_exists rounds stem ext i <> None.
Proof.
  intros Hknown Hrounds Hnone.
  pose proof (unique_name_loop_spec rounds stem ext i) as Hspec.
  rewrite Hnone in Hspec.
  set (tried := map (fun n => numbered_name stem ext (i + Z.of_nat n)) (seq 0 rounds)).
  assert (NoDup tried) as Hnodup.
  { apply NoDup_fmap_2_strong; [|apply NoDup_ListNoDup, seq_NoDup].
    intros n m _ _ Heq%numbered_name_inj. lia. }
  assert (incl tried known) as Hincl.
  { intros c Hc. apply list_elem_of_In. apply Hknown.
    apply in_map_iff in Hc as (n & <- & Hn%in_seq). apply Hspec. lia. }
  apply NoDup_ListNoDup in Hnodup.
  pose proof (NoDup_incl_length Hnodup Hincl) as Hlen.
  unfold tried in Hlen. rewrite length_map, length_seq in Hlen. lia.
Qed.

(** X16.  In a directory with finitely many names [unique_name] comes
    to an end and returns a name that does not exist there: [stem+ext]
    itself when that is free, and otherwise [stem-i+ext] for the least
    [i] from 2 on that is free. *)
Theorem unique_name_fresh (known : list str) (rounds : nat) (stem ext : str) :
  (forall c, path_exists c = true -> c ∈ known) ->
  (length known < rounds)%nat ->
  exists c,
    unique_name path_exists rounds stem ext = Some c
    /\ path_exists c = false
    /\ ((c = stem ++ ext)
        \/ (path_exists (stem ++ ext) = true
            /\ exists i, (2 <= i)%Z
                 /\ c = numbered_name stem ext i
                 /\ forall j, (2 <= j < i)%Z ->
                              path_exists (numbered_name stem ext j) = true)).
Proof.
  intros Hknown Hrounds. unfold unique_name.
  destruct (path_exists (stem ++ ext)) eqn:Hfirst; simpl.
  - pose proof (unique_name_loop_spec rounds stem ext 2) as Hspec.
    pose proof (unique_name_loop_ends known rounds stem ext 2 Hknown Hrounds) as Hends.
    destruct (unique_name_loop path_exists rounds stem ext 2) as [c|]; [|done].
    destruct Hspec as (k & Hk & -> & Hfree & Hbelow).
    eexists. split; [done|]. split; [done|]. right. split; [done|].
    exists k. split; [lia|]. done.
  - exists (stem ++ ext). split; [done|]. split; [done|]. by left.
Qed.

End UniqueNameFacts.

Lemma unique_name_fresh_witness :
  let taken := [lit "red-car.jpg"; lit "red-car-2.jpg"; lit "red-car-4.jpg"] in
  let path_exists := fun c => bool_decide (c ∈ taken) in
  exists c,
    unique_name path_exists 4 (lit "red-car") (lit ".jpg") = Some c
    /\ path_exists c = false
    /\ ((c = lit "red-car" ++ lit ".jpg")
        \/ (path_exists (lit "red-car" ++ lit ".jpg") = true
            /\ exists i, (2 <= i)%Z
                 /\ c = numbered_name (lit "red-car") (lit ".jpg") i
                 /\ forall j, (2 <= j < i)%Z ->
                      path_exists (numbered_name (lit "red-car") (lit ".jpg") j) = true)).
Proof.
  intros taken path_exists.
  apply (unique_name_fresh path_exists taken 4 (lit "red-car") (lit ".jpg")).
  - intros c Hc. by apply bool_decide_eq_true in Hc.
  - vm_compute. lia.
Defined.

Example unique_name_skips_taken :
  unique_name (fun c => bool_decide (c ∈ [lit "red-car.jpg"; lit "red-car-2.jpg";
                                           lit "red-car-4.jpg"]))
    4 (lit "red-car") (lit ".jpg")
  = Some (lit "red-car-3.jpg").
Proof. vm_compute. reflexivity. Qed.

(* ================================================================== *)
(** * assign-tags.py *)

Section AssignTagsFacts.
Context {U : PyCase}.

Variable themes : list Theme.

Lemma foldl_assign (items : list Item) (m0 : gmap str (list str)) (p : str) :
  match foldl (fun results item => <[i_path item := tags_for themes item]> results)
              m0 items !! p with
  | Some tags =>
    (exists item, item ∈ items /\ i_path item = p /\ tags = tags_for themes item)
    \/ ((forall item, item ∈ items -> i_path item <> p) /\ m0 !! p = Some tags)
  | None => m0 !! p = None /\ forall item, item ∈ items -> i_path item <> p
  end.
Proof.
  revert m0. induction items as [|x items IH]; intros m0; simpl.
  - destruct (m0 !! p) eqn:Hp.
    + right. split; [|done]. by intros item ?%elem_of_nil.
    + split; [done|]. by intros item ?%elem_of_nil.
  - specialize (IH (<[i_path x := tags_for themes x]> m0)).
    destruct (foldl _ _ items !! p) as [tags|].
    + destruct IH as [(item & Hin & Hp & Ht)|[Hnone Hins]].
      * left. exists item. split; [by right|done].
      * destruct (decide (i_path x = p)) as [Hx|Hx].
        -- rewrite Hx, lookup_insert_eq in Hins. injection Hins as <-.
           left. exists x. split; [by left|done].
        -- rewrite lookup_insert_ne in Hins by done. right. split; [|done].
           intros item [->|Hitem]%elem_of_cons; [done|by apply Hnone].
    + destruct IH as [Hins Hall].
      destruct (decide (i_path x = p)) as [Hx|Hx].
      * by rewrite Hx, lookup_insert_eq in Hins.
      * rewrite lookup_insert_ne in Hins by done. split; [done|].
        intros item [->|Hitem]%elem_of_cons; [done|by apply Hall].
Qed.

Lemma sublist_map_filter {A B} (f : A -> B) (P : A -> bool) (l : list A) :
  sublist (map f (List.filter P l)) (map f l).
Proof.
  induction l as [|x l IH]; simpl; [constructor|].
  destruct (P x); simpl; by constructor.
Qed.

(** X17.  [assign_by_keywords] gives every scanned item an entry under
    its path, and no other path one.  The entry lists the tags of the
    themes one of whose keywords is a word of the stem (the stem lowered
    and split at hyphens, underscores and white space), in the order of
    the themes; it is the empty list when no theme matches. *)
Theorem assign_by_keywords_entries (items : list Item) :
  (forall p tags,
     assign_by_keywords items themes !! p = Some tags ->
     exists item, item ∈ items /\ i_path item = p /\ tags = tags_for themes item)
  /\ (forall item, item ∈ items ->
        is_Some (assign_by_keywords items themes !! i_path item))
  /\ (NoDup (map i_path items) ->
      forall item, item ∈ items ->
        assign_by_keywords items themes !! i_path item = Some (tags_for themes item))
  /\ (forall item,
        sublist (tags_for themes item) (map t_tag themes)
        /\ (forall tag,
              tag ∈ tags_for themes item
              <-> exists theme w,
                    theme ∈ themes /\ t_tag theme = tag
                    /\ w ∈ tokenize (i_stem item) /\ w ∈ t_keywords theme)
        /\ (tags_for themes item = []
            <-> forall theme w, theme ∈ themes -> w ∈ tokenize (i_stem item) ->
                                w ∉ t_keywords theme)).
Proof.
  assert (Hmatch : forall item theme,
             theme_matches (tokenize (i_stem item)) theme = true
             <-> exists w, w ∈ tokenize (i_stem item) /\ w ∈ t_keywords theme).
  { intros item theme. unfold theme_matches. rewrite existsb_exists.
    split; intros (w & Hw & Hk); exists w.
    - split; [by apply list_elem_of_In|by apply bool_decide_eq_true in Hk].
    - split; [by apply list_elem_of_In|by apply bool_decide_eq_true]. }
  assert (Htags : forall item tag,
             tag ∈ tags_for themes item
             <-> exists theme w,
                   theme ∈ themes /\ t_tag theme = tag
                   /\ w ∈ tokenize (i_stem item) /\ w ∈ t_keywords theme).
  { intros item tag. unfold tags_for. rewrite elem_of_map. split.
    - intros (theme & -> & [Hin Hm]%elem_of_filter_bool).
      apply Hmatch in Hm as (w & Hw & Hk). by exists theme, w.
    - intros (theme & w & Hin & <- & Hw & Hk). exists theme. split; [done|].
      apply elem_of_filter_bool. split; [done|]. apply Hmatch. by exists w. }
  split; [|split; [|split]].
  - intros p tags Hp. unfold assign_by_keywords in Hp.
    pose proof (foldl_assign items ∅ p) as H. rewrite Hp in H.
    destruct H as [H|[_ H]]; [done|]. by rewrite lookup_empty in H.
  - intros item Hin. unfold assign_by_keywords.
    pose proof (foldl_assign items ∅ (i_path item)) as H.
    destruct (foldl _ _ items !! i_path item); [done|].
    destruct H as [_ H]. by destruct (H item Hin).
  - intros Hnodup item Hin. unfold assign_by_keywords.
    pose proof (foldl_assign items ∅ (i_path item)) as H.
    destruct (foldl _ _ items !! i_path item) as [tags|].
    + destruct H as [(item' & Hin' & Hp & ->)|[H _]]; [|by destruct (H item Hin)].
      f_equal. f_equal. symmetry.
      apply list_elem_of_lookup in Hin as [n Hn], Hin' as [n' Hn'].
      assert (n = n') as ->; [|congruence].
      eapply NoDup_lookup; [exact Hnodup| |].
      * change (map i_path items) with (i_path <$> items).
        by rewrite list_lookup_fmap, Hn.
      * change (map i_path items) with (i_path <$> items).
        rewrite list_lookup_fmap, Hn'. simpl. by rewrite Hp.
    + destruct H as [_ H]. by destruct (H item Hin).
  - intros item. split; [apply sublist_map_filter|]. split; [apply Htags|].
    split.
    + intros Hnil theme w Hth Hw Hk.
      assert (t_tag theme ∈ tags_for themes item) as Hin
        by (apply Htags; by exists theme, w).
      rewrite Hnil in Hin. by apply elem_of_nil in Hin.
    + intros Hno. destruct (tags_for themes item) as [|tag rest] eqn:Htf; [done|].
      assert (tag ∈ tags_for themes item) as Hin by (rewrite Htf; by left).
      apply Htags in Hin as (theme & w & Hth & _ & Hw & Hk).
      by destruct (Hno theme w Hth Hw).
Qed.

End AssignTagsFacts.

Lemma assign_by_keywords_entries_witness :
  assign_by_keywords (U := AsciiCase.ascii_case) sample_items sample_themes
    !! i_path neon_item
  = Some (tags_for (U := AsciiCase.ascii_case) sample_themes neon_item).
Proof.
  apply (proj1 (proj2 (proj2 (assign_by_keywords_entries (U := AsciiCase.ascii_case)
                                sample_themes sample_items)))).
  - apply (bool_decide_unpack _). vm_compute. exact I.
  - apply list_elem_of_here.
Defined.

Example assign_by_keywords_sample :
  assign_by_keywords (U := AsciiCase.ascii_case) sample_items sample_themes
  = <[lit "70s/portrait.jpg" := []]>
      (<[lit "70s/Neon_Street-2.jpg" := [lit "urban"; lit "night"]]> ∅).
Proof. apply (bool_decide_unpack _). vm_compute. exact I. Qed.

(** ** From the tag document to the page *)

Section EmptyLists.
Context {U : PyCase}.

(** X18.  The page depends on the tag document through its non-empty
    lists only: leaving out every path whose list is empty, as
    [assign_by_keywords] writes it for a file no theme matches, renders
    the same block. *)
Theorem block_ignores_empty_lists (prefixes : list str) (s : Snapshot)
    (doc : gmap str (list str)) :
  tags_json s = TagsObject doc ->
  new_block (fst (scan_portfolio_in prefixes s))
  = new_block (fst (scan_portfolio_in prefixes
                      (with_tags_json (TagsObject (without_empty_lists doc)) s))).
Proof.
  intros Hdoc. apply new_block_same_render.
  unfold scan_portfolio_in, load_tags. simpl. rewrite Hdoc.
  apply Forall2_flat_map_same. intros album _.
  apply scan_album_same_render. intros k. unfold without_empty_lists.
  destruct (doc !! k) as [[|t ts]|] eqn:Hk.
  - right. split; [done|]. apply map_lookup_filter_None. right.
    intros tags Htags. rewrite Hk in Htags. injection Htags as <-. simpl. tauto.
  - left. symmetry. apply map_lookup_filter_Some. done.
  - left. symmetry. apply map_lookup_filter_None. by left.
Qed.

End EmptyLists.

Lemma block_ignores_empty_lists_witness :
  new_block (fst (scan_portfolio (U := AsciiCase.ascii_case) tagged_album))
  = new_block (fst (scan_portfolio (U := AsciiCase.ascii_case)
                      (with_tags_json
                         (TagsObject (without_empty_lists
                                        (<[lit "70s/x.jpg" := [lit "urban"]]>
                                           (<[lit "70s/z.jpg" := []]> ∅))))
                         tagged_album))).
Proof.
  apply (block_ignores_empty_lists (U := AsciiCase.ascii_case) GENERIC_PREFIXES
           tagged_album).
  reflexivity.
Defined.

(* ================================================================== *)
(** * One header per album *)

Lemma separators_of_app (l1 l2 : list str) :
  separators_of (l1 ++ l2) = separators_of l1 ++ separators_of l2.
Proof. unfold separators_of. apply List.filter_app. Qed.

Lemma separators_of_records (assets : list Asset) :
  separators_of (map record_line assets) = [].
Proof.
  induction assets as [|a assets IH]; [done|].
  cbn [map]. unfold separators_of in *. cbn [List.filter].
  by rewrite is_record_line_record.
Qed.

Lemma body_loop_same_album (album : str) (group more : list Asset) :
  (forall a, a ∈ group -> a_album a = album) ->
  body_loop (Some album) (group ++ more)
    = map record_line group ++ body_loop (Some album) more.
Proof.
  induction group as [|a group IH]; intros Hall; [done|].
  cbn [app body_loop map]. rewrite (Hall a) by by left.
  rewrite bool_decide_true by done.
  unfold record_line at 1. f_equal. apply IH. intros b Hb. apply Hall. by right.
Qed.

Lemma separators_of_groups (groups : str -> list Asset) (albums : list str)
    (current_album : option str) :
  (forall album a, a ∈ groups album -> a_album a = album) ->
  NoDup albums ->
  (forall album, current_album = Some album -> album ∉ albums) ->
  separators_of (body_loop current_album (flat_map groups albums))
    = map separator (List.filter (fun album => has_some (groups album)) albums).
Proof.
  intros Hgroups Hnodup. revert current_album.
  induction Hnodup as [|album albums Hnotin Hnodup IH]; intros current_album Hcur;
    [done|].
  cbn [flat_map List.filter].
  destruct (groups album) as [|a group] eqn:Hg; cbn [has_some app].
  - apply IH. intros x Hx Hin. apply (Hcur x Hx). by right.
  - assert (forall b, b ∈ a :: group -> a_album b = album) as Hall.
    { intros b Hb. apply Hgroups. by rewrite Hg. }
    cbn [body_loop]. rewrite (Hall a) by by left.
    rewrite bool_decide_false.
    2:{ intros Heq. apply (Hcur album); [done|by left]. }
    rewrite body_loop_same_album by (intros b Hb; apply Hall; by right).
    cbn [map]. change (separators_of ?l) with (List.filter (fun line => negb (is_record_line line)) l).
    cbn [List.filter].
    replace (is_record_line (separator album)) with false by reflexivity.
    fold (record_line a). rewrite is_record_line_record. cbn [negb].
    f_equal. fold (separators_of (map record_line group ++ body_loop (Some album)
                                    (flat_map groups albums))).
    rewrite separators_of_app, separators_of_records. cbn [app].
    apply IH. by intros x [= <-].
Qed.

Section Headers.
Context {U : PyCase}.

(** X19.  With distinct directory names the body has exactly one
    separator comment for every album that holds media, in the order of
    the albums, and none for an album without media. *)
Theorem one_separator_per_album (prefixes : list str) (s : Snapshot) :
  NoDup (map rname (root s)) ->
  separators_of (body_lines (fst (scan_portfolio_in prefixes s)))
    = map separator
        (List.filter
           (fun album =>
              has_some (scan_album prefixes (load_tags s) album (album_dir_of s album)))
           (snd (scan_portfolio_in prefixes s))).
Proof.
  intros Hnames. unfold scan_portfolio_in, body_lines. cbn [fst snd].
  apply separators_of_groups.
  - intros album a Ha. by apply scan_album_entry in Ha as (_ & _ & _ & ? & _).
  - rewrite sorted_Permutation. by apply NoDup_map_filter.
  - done.
Qed.

End Headers.

Lemma one_separator_per_album_witness :
  separators_of (body_lines (fst (scan_portfolio (U := AsciiCase.ascii_case) tagged_album)))
    = map separator
        (List.filter
           (fun album =>
              has_some (scan_album (U := AsciiCase.ascii_case) GENERIC_PREFIXES
                          (load_tags tagged_album) album
                          (album_dir_of tagged_album album)))
           (snd (scan_portfolio (U := AsciiCase.ascii_case) tagged_album))).
Proof.
  apply (one_separator_per_album (U := AsciiCase.ascii_case) GENERIC_PREFIXES tagged_album).
  apply (bool_decide_unpack _). vm_compute. exact I.
Defined.

(* ================================================================== *)
(** * Titles of one group *)

(** The value read back from decimal digits, between the powers of ten
    of their count. *)
Lemma of_uint_acc_bounds (d : Decimal.uint) (acc : positive) :
  (10 ^ Z.of_nat (Decimal.nb_digits d) * Z.pos acc
     <= Z.pos (Pos.of_uint_acc d acc)
     < 10 ^ Z.of_nat (Decimal.nb_digits d) * (Z.pos acc + 1))%Z.
Proof.
  revert acc. induction d as [|d IH|d IH|d IH|d IH|d IH|d IH|d IH|d IH|d IH|d IH];
    intros acc; cbn [Decimal.nb_digits Pos.of_uint_acc];
    [change (10 ^ Z.of_nat 0)%Z with 1%Z; lia|..];
    rewrite Nat2Z.inj_succ, Z.pow_succ_r by lia;
    assert (0 < 10 ^ Z.of_nat (Decimal.nb_digits d))%Z
      by (apply Z.pow_pos_nonneg; lia);
    match goal with
    | |- context [Pos.of_uint_acc d ?a] => specialize (IH a)
    end; nia.
Qed.

Lemma to_uint_head (p : positive) (l : Decimal.uint) :
  Pos.to_uint p <> Decimal.D0 l.
Proof.
  intros Hp.
  assert (Decimal.unorm (Pos.to_uint p) = Pos.to_uint p) as Hnorm.
  { rewrite <- Unsigned.to_of, Unsigned.of_to. reflexivity. }
  rewrite Hp in Hnorm.
  destruct (Decimal.uint_eq_dec l Decimal.Nil) as [->|Hl].
  - pose proof (Unsigned.of_to p) as Hof. rewrite Hp in Hof. discriminate.
  - pose proof (DecimalFacts.nb_digits_unorm l Hl) as Hlen.
    change (Decimal.unorm (Decimal.D0 l)) with (Decimal.unorm l) in Hnorm.
    rewrite Hnorm in Hlen. cbn [Decimal.nb_digits] in Hlen. lia.
Qed.

Lemma to_uint_bounds (p : positive) :
  (10 ^ (Z.of_nat (Decimal.nb_digits (Pos.to_uint p)) - 1) <= Z.pos p
     < 10 ^ Z.of_nat (Decimal.nb_digits (Pos.to_uint p)))%Z.
Proof.
  pose proof (Unsigned.of_to p) as Hof.
  pose proof (to_uint_head p) as Hhead.
  destruct (Pos.to_uint p) as [|d|d|d|d|d|d|d|d|d|d];
    [discriminate|by destruct (Hhead d)|..];
    cbn [Pos.of_uint] in Hof; injection Hof as <-;
    cbn [Decimal.nb_digits]; rewrite Nat2Z.inj_succ;
    replace (Z.succ (Z.of_nat (Decimal.nb_digits d)) - 1)%Z
      with (Z.of_nat (Decimal.nb_digits d)) by lia;
    rewrite Z.pow_succ_r by lia;
    assert (0 < 10 ^ Z.of_nat (Decimal.nb_digits d))%Z
      by (apply Z.pow_pos_nonneg; lia);
    match goal with
    | |- context [Pos.of_uint_acc d ?a] => pose proof (of_uint_acc_bounds d a)
    end; nia.
Qed.

(** A larger number has at least as many digits. *)
Lemma nb_digits_mono (p q : positive) :
  (p <= q)%positive ->
  (Decimal.nb_digits (Pos.to_uint p) <= Decimal.nb_digits (Pos.to_uint q))%nat.
Proof.
  intros Hpq.
  destruct (to_uint_bounds p) as [Hp _], (to_uint_bounds q) as [_ Hq].
  destruct (le_gt_dec (Decimal.nb_digits (Pos.to_uint p))
              (Decimal.nb_digits (Pos.to_uint q))) as [|Hgt]; [done|].
  assert (10 ^ Z.of_nat (Decimal.nb_digits (Pos.to_uint q))
            <= 10 ^ (Z.of_nat (Decimal.nb_digits (Pos.to_uint p)) - 1))%Z
    by (apply Z.pow_le_mono_r; lia).
  lia.
Qed.

Lemma string_of_uint_length (d : Decimal.uint) :
  length (bytes_of (NilEmpty.string_of_uint d)) = Decimal.nb_digits d.
Proof. induction d; cbn [NilEmpty.string_of_uint bytes_of Decimal.nb_digits length]; congruence. Qed.

(** A positive number prints as its digits, the first of them not a
    zero. *)
Lemma py_str_pos (p : positive) :
  length (py_str (Z.pos p)) = Decimal.nb_digits (Pos.to_uint p)
  /\ exists c rest, py_str (Z.pos p) = c :: rest
       /\ c <> ch "0" /\ (c =? ch "+") || (c =? ch "-") = false.
Proof.
  unfold py_str. cbn [Z.to_int NilZero.string_of_int].
  pose proof (to_uint_head p) as Hhead.
  pose proof (@Unsigned.to_uint_nonnil p) as Hnil.
  destruct (Pos.to_uint p) as [|d|d|d|d|d|d|d|d|d|d];
    [done|by destruct (Hhead d)|..];
    (split; [apply (string_of_uint_length (_ d))|]);
    eexists _, _; (split; [reflexivity|]); by vm_compute.
Qed.

(** The position of a file, filled to the width of the count. *)
Lemma zfill_position (index total : Z) :
  (1 <= index <= total)%Z ->
  exists fill,
    zfill (py_str index) (length (py_str total))
      = repeat (ch "0") fill ++ py_str index
    /\ (fill + length (py_str index) = length (py_str total))%nat.
Proof.
  intros [Hi Ht].
  destruct index as [|p|p]; try lia. destruct total as [|q|q]; try lia.
  destruct (py_str_pos p) as (Hlp & c & rest & Hp & _ & Hsign).
  destruct (py_str_pos q) as (Hlq & _).
  pose proof (nb_digits_mono p q Ht) as Hmono.
  unfold zfill. destruct (_ <=? _)%nat eqn:Hle.
  - exists 0%nat. split; [done|]. apply Nat.leb_le in Hle. simpl. lia.
  - exists (length (py_str (Z.pos q)) - length (py_str (Z.pos p)))%nat.
    apply Nat.leb_gt in Hle. split; [|lia].
    destruct (py_str (Z.pos p)) as [|c0 s'] eqn:Hs; [done|].
    injection Hp as -> ->. by rewrite Hsign.
Qed.

Lemma leading_zeros (a b : nat) (p : positive) (s : str) :
  repeat (ch "0") a ++ py_str (Z.pos p) = repeat (ch "0") b ++ s -> (b <= a)%nat.
Proof.
  intros Heq. destruct (le_gt_dec b a) as [|Hgt]; [done|]. exfalso.
  replace b with (a + S (b - a - 1))%nat in Heq by lia.
  rewrite repeat_app, <- app_assoc in Heq. apply app_inv_head in Heq.
  destruct (py_str_pos p) as (_ & c & rest & Hp & Hc & _).
  rewrite Hp in Heq. cbn [repeat app] in Heq. by injection Heq.
Qed.

Lemma zfill_position_inj (index index' total : Z) :
  (1 <= index <= total)%Z -> (1 <= index' <= total)%Z ->
  zfill (py_str index) (length (py_str total))
    = zfill (py_str index') (length (py_str total)) ->
  index = index'.
Proof.
  intros Hi Hi' Heq.
  destruct (zfill_position index total Hi) as (fill & Hfill & _).
  destruct (zfill_position index' total Hi') as (fill' & Hfill' & _).
  rewrite Hfill, Hfill' in Heq.
  destruct index as [|p|p]; try lia. destruct index' as [|p'|p']; try lia.
  pose proof (leading_zeros _ _ _ _ Heq).
  pose proof (leading_zeros _ _ _ _ (eq_sym Heq)).
  assert (fill = fill') as -> by lia.
  apply app_inv_head in Heq. by apply py_str_inj.
Qed.

Lemma zfill_position_length (index total : Z) :
  (1 <= index <= total)%Z ->
  length (zfill (py_str index) (length (py_str total))) = length (py_str total).
Proof.
  intros Hi. destruct (zfill_position index total Hi) as (fill & -> & <-).
  by rewrite length_app, repeat_length.
Qed.

Lemma numbered_inj (head head' : str) (index index' total : Z) :
  (1 <= index <= total)%Z -> (1 <= index' <= total)%Z ->
  numbered head index total = numbered head' index' total ->
  index = index'.
Proof.
  intros Hi Hi'. unfold numbered. rewrite !app_assoc.
  intros [_ Hpad]%app_inj_2.
  - by apply (zfill_position_inj index index' total).
  - by rewrite !zfill_position_length.
Qed.

Section GroupTitles.
Context {U : PyCase}.

Lemma make_title_numbered (prefixes : list str) (album filename : str)
    (index total : Z) :
  (1 < total)%Z ->
  exists head,
    (head = capitalize album \/ head = title_case (clean_stem filename))
    /\ make_title_in prefixes album filename index total
        = numbered head index total.
Proof.
  intros Ht. unfold make_title_in.
  destruct (bool_decide _ || _); [by eexists; split; [left|]|].
  destruct (generic_loop _ _ _) as [t|] eqn:Hloop.
  - rewrite generic_loop_existsb in Hloop.
    destruct (existsb _ _); [|done]. injection Hloop as <-.
    by eexists; split; [left|].
  - replace (total >? 1)%Z with true by (symmetry; apply Z.gtb_lt; lia).
    by eexists; split; [right|].
Qed.

(** X14.  In a group of more than one file the number of every title
    has the width of the size of the group: the title is the capitalized
    album or the title-cased stem, the dash, then zeros and the position
    as [str] prints it, together as long as the size printed; no digit
    of the position is cut and no sign is moved. *)
Theorem make_title_number_width (prefixes : list str) (album filename : str)
    (index total : Z) :
  (1 < total)%Z -> (1 <= index <= total)%Z ->
  exists head zeros,
    make_title_in prefixes album filename index total
      = head ++ lit " — " ++ repeat (ch "0") zeros ++ py_str index
    /\ (zeros + length (py_str index) = length (py_str total))%nat
    /\ (head = capitalize album \/ head = title_case (clean_stem filename)).
Proof.
  intros Ht Hi.
  destruct (make_title_numbered prefixes album filename index total Ht)
    as (head & Hhead & ->).
  destruct (zfill_position index total Hi) as (zeros & Hfill & Hlen).
  exists head, zeros. unfold numbered. by rewrite Hfill.
Qed.

Lemma make_title_inj (prefixes : list str)
    (album filename filename' : str) (index index' total : Z) :
  (1 <= index <= total)%Z -> (1 <= index' <= total)%Z ->
  make_title_in prefixes album filename index total
    = make_title_in prefixes album filename' index' total ->
  index = index'.
Proof.
  intros Hi Hi' Heq.
  destruct (Z.eq_dec total 1%Z) as [->|Hmany]; [lia|].
  destruct (make_title_numbered prefixes album filename index total)
    as (head & _ & Hh); [lia|].
  destruct (make_title_numbered prefixes album filename' index' total)
    as (head' & _ & Hh'); [lia|].
  rewrite Hh, Hh' in Heq. by apply (numbered_inj head head' index index' total).
Qed.

(** X20.  Two files of one group never get the same title: with the
    positions counted from one up to the size of the group, files at
    different positions have different titles, whatever their names
    are. *)
Theorem titles_distinct_in_group (prefixes : list str)
    (album filename filename' : str) (index index' total : Z) :
  (1 <= index <= total)%Z -> (1 <= index' <= total)%Z ->
  index <> index' ->
  make_title_in prefixes album filename index total
    <> make_title_in prefixes album filename' index' total.
Proof.
  intros Hi Hi' Hne Heq. apply Hne.
  by apply (make_title_inj prefixes album filename filename' index index' total).
Qed.

Lemma enumerate_elem_index {A} (k : Z) (l : list A) (i : Z) (x : A) :
  (i, x) ∈ enumerate k l ->
  (k <= i < k + Z.of_nat (length l))%Z /\ l !! Z.to_nat (i - k) = Some x.
Proof.
  revert k. induction l as [|y l IH]; intros k; cbn [enumerate length].
  - by intros ?%elem_of_nil.
  - intros [[= -> ->]|Hin]%elem_of_cons.
    + split; [lia|]. by rewrite Z.sub_diag.
    + apply IH in Hin as [Hr Hl]. split; [lia|].
      replace (Z.to_nat (i - k)) with (S (Z.to_nat (i - (k + 1)))) by lia. done.
Qed.

Lemma attach_title (tags_data : gmap str (list str)) (album : str)
    (album_dir : AlbumDir) (fname : str) (entry : Asset) :
  a_title (attach_meta_and_tags tags_data album album_dir fname entry) = a_title entry.
Proof.
  unfold attach_meta_and_tags.
  by destruct (tags_data !! _), (_ !! fname).
Qed.

Lemma photo_entry_title (prefixes : list str)
    (tags_data : gmap str (list str)) (album : str)
    (album_dir : AlbumDir) (photos : list str) (i : Z) (fname : str) :
  let a := photo_entry prefixes tags_data album album_dir photos i fname in
  a_type a = lit "photo"
  /\ a_title a = make_title_in prefixes album fname i (Z.of_nat (length photos)).
Proof.
  unfold photo_entry. rewrite attach_type, attach_title.
  by destruct (truthy _ && _).
Qed.

Lemma video_entry_title (prefixes : list str)
    (tags_data : gmap str (list str)) (album : str)
    (album_dir : AlbumDir) (photos videos : list str) (i : Z) (fname : str) :
  let a := video_entry prefixes tags_data album album_dir photos videos i fname in
  a_type a = lit "video"
  /\ a_title a = make_title_in prefixes album fname i (Z.of_nat (length videos)).
Proof.
  unfold video_entry. rewrite attach_type, attach_title.
  by destruct (truthy _ && bool_decide _).
Qed.

Lemma scan_album_titles_inj (prefixes : list str)
    (tags_data : gmap str (list str)) (album : str)
    (album_dir : AlbumDir) (a b : Asset) :
  a ∈ scan_album prefixes tags_data album album_dir ->
  b ∈ scan_album prefixes tags_data album album_dir ->
  a_type a = a_type b -> a_title a = a_title b -> a = b.
Proof.
  unfold scan_album. destruct (classify _ _) as [photos videos].
  intros [Ha|Ha]%elem_of_app [Hb|Hb]%elem_of_app;
    apply elem_of_map in Ha as ([i f] & -> & Hi);
    apply elem_of_map in Hb as ([j g] & -> & Hj);
    apply enumerate_elem_index in Hi as [Hi Hf];
    apply enumerate_elem_index in Hj as [Hj Hg].
  - destruct (photo_entry_title prefixes tags_data album album_dir photos i f) as [_ ->].
    destruct (photo_entry_title prefixes tags_data album album_dir photos j g) as [_ ->].
    intros _ Ht. apply make_title_inj in Ht; [|lia..]. subst j.
    rewrite Hf in Hg. by injection Hg as ->.
  - destruct (photo_entry_title prefixes tags_data album album_dir photos i f) as [-> _].
    destruct (video_entry_title prefixes tags_data album album_dir photos videos j g) as [-> _].
    intros Hty. by vm_compute in Hty.
  - destruct (video_entry_title prefixes tags_data album album_dir photos videos i f) as [-> _].
    destruct (photo_entry_title prefixes tags_data album album_dir photos j g) as [-> _].
    intros Hty. by vm_compute in Hty.
  - destruct (video_entry_title prefixes tags_data album album_dir photos videos i f) as [_ ->].
    destruct (video_entry_title prefixes tags_data album album_dir photos videos j g) as [_ ->].
    intros _ Ht. apply make_title_inj in Ht; [|lia..]. subst j.
    rewrite Hf in Hg. by injection Hg as ->.
Qed.

(** X21.  Within one album no two photos share a title and no two
    videos share a title: two different assets of the scan with the same
    album and the same type have different titles. *)
Theorem scan_titles_distinct (prefixes : list str) (s : Snapshot) (a b : Asset) :
  a ∈ fst (scan_portfolio_in prefixes s) ->
  b ∈ fst (scan_portfolio_in prefixes s) ->
  a_album a = a_album b -> a_type a = a_type b ->
  a <> b ->
  a_title a <> a_title b.
Proof.
  unfold scan_portfolio_in. cbn [fst].
  intros (album & _ & Ha)%elem_of_flat_map (album' & _ & Hb)%elem_of_flat_map.
  pose proof (scan_album_entry _ _ _ _ _ Ha) as (? & _ & _ & Haa & _).
  pose proof (scan_album_entry _ _ _ _ _ Hb) as (? & _ & _ & Hbb & _).
  intros Halbum Hty Hne Ht. apply Hne.
  assert (album' = album) as -> by congruence.
  by apply (scan_album_titles_inj prefixes (load_tags s) album (album_dir_of s album)).
Qed.

End GroupTitles.

Lemma make_title_number_width_witness :
  exists head zeros,
    make_title (U := AsciiCase.ascii_case) (lit "70s") (lit "sunset.jpg") 7 12
      = head ++ lit " — " ++ repeat (ch "0") zeros ++ py_str 7
    /\ (zeros + length (py_str 7) = length (py_str 12))%nat
    /\ (head = capitalize (PyCase := AsciiCase.ascii_case) (lit "70s")
        \/ head = title_case (PyCase := AsciiCase.ascii_case)
                    (clean_stem (lit "sunset.jpg"))).
Proof.
  apply (make_title_number_width (U := AsciiCase.ascii_case) GENERIC_PREFIXES
           (lit "70s") (lit "sunset.jpg") 7 12); lia.
Defined.

Lemma titles_distinct_in_group_witness :
  make_title (U := AsciiCase.ascii_case) (lit "70s") (lit "img.jpg") 2 12
    <> make_title (U := AsciiCase.ascii_case) (lit "70s") (lit "img.jpg") 11 12.
Proof.
  apply (titles_distinct_in_group (U := AsciiCase.ascii_case) GENERIC_PREFIXES
           (lit "70s") (lit "img.jpg") (lit "img.jpg") 2 11 12); lia.
Defined.

Lemma scan_titles_distinct_witness : a_title x_asset <> a_title y_asset.
Proof.
  apply (scan_titles_distinct (U := AsciiCase.ascii_case) GENERIC_PREFIXES
           tagged_album x_asset y_asset).
  - vm_compute. apply list_elem_of_here.
  - vm_compute. apply list_elem_of_further, list_elem_of_here.
  - reflexivity.
  - reflexivity.
  - intros Heq. apply (f_equal a_src) in Heq. by vm_compute in Heq.
Defined.
